(** * Indexed min-heap and lowercase trie: a shallow embedding

    The two Go programs of the repository are embedded as Rocq functions:
    [Heap] follows the indexed heap ([ItemHeap] driven by Go's
    [container/heap]), [Trie] follows [trie.go].  A Go panic (slice index
    out of range, the explicit [panic] of [charToIndex]) is the result
    [None]; a normal return is [Some]. *)

From Stdlib Require Import Ascii ZifyNat.
From stdpp Require Import gmap strings list fin_maps sorting.
From Equations Require Import Equations.

Set Default Proof Using "Type".
Set Warnings "-clear-no-such-hyp".

(** [lia] with the quotient by two of the heap positions spelled out. *)
Ltac dlia := zify; Z.to_euclidean_division_equations; lia.

#[global] Arguments Nat.div : simpl never.

(** ** The indexed heap *)

Module Heap.

(** [items] is the Go slice [[]int], [index] the Go [map[int]int].  Values
    are Go [int]s: they are only compared and stored, never computed with,
    so they are taken in [Z].  Positions are slice positions, taken in
    [nat]: they stay below [len(h.items)], so [2*i + 1] never wraps, and the
    only place where Go computes a negative one is [(j - 1) / 2] at [j = 0],
    which Go's truncating division sends to [0], as does [nat]. *)
Record ItemHeap := mkItemHeap { items : list Z; index : gmap Z nat }.

Definition NewItemHeap : ItemHeap := mkItemHeap [] ∅.

Definition Len (h : ItemHeap) : nat := length (items h).

(** [h.items[i] < h.items[j]]; reading out of range panics. *)
Definition Less (h : ItemHeap) (i j : nat) : option bool :=
  a ← items h !! i;
  b ← items h !! j;
  Some (bool_decide (a < b)%Z).

(** The tuple assignment reads both slots, then writes slot [i], then slot
    [j]; the two map writes read the slice after the exchange. *)
Definition Swap (h : ItemHeap) (i j : nat) : option ItemHeap :=
  a ← items h !! i;
  b ← items h !! j;
  let items' := <[j:=a]> (<[i:=b]> (items h)) in
  vi ← items' !! i;
  let index1 := <[vi:=i]> (index h) in
  vj ← items' !! j;
  Some (mkItemHeap items' (<[vj:=j]> index1)).

Definition Push (h : ItemHeap) (item : Z) : ItemHeap :=
  let index' := <[item:=length (items h)]> (index h) in
  mkItemHeap (items h ++ [item]) index'.

Definition Pop (h : ItemHeap) : option (ItemHeap * Z) :=
  let n := length (items h) in
  item ← items h !! (n - 1);
  Some (mkItemHeap (take (n - 1) (items h)) (delete item (index h)), item).

(** *** Go's [container/heap], instantiated at [ItemHeap] *)

(** [up]: the loop [for { i := (j-1)/2; if i == j || !h.Less(j, i) { break };
    h.Swap(i, j); j = i }]. *)
Equations? up (h : ItemHeap) (j : nat) : option ItemHeap by wf j lt :=
  up h j with decide ((j - 1) / 2 = j) => {
    | left _ => Some h
    | right _ with Less h j ((j - 1) / 2) => {
        | None => None
        | Some false => Some h
        | Some true with Swap h ((j - 1) / 2) j => {
            | None => None
            | Some h' => up h' ((j - 1) / 2) } } }.
Proof. dlia. Qed.

(** The child that [down] compares with its parent: [j := j1; if j2 := j1 +
    1; j2 < n && h.Less(j2, j1) { j = j2 }]. *)
Definition smaller_child (h : ItemHeap) (j1 n : nat) : option nat :=
  if decide (j1 + 1 < n) then
    b ← Less h (j1 + 1) j1;
    Some (if b : bool then j1 + 1 else j1)
  else Some j1.

Lemma smaller_child_range h j1 n j :
  smaller_child h j1 n = Some j → j = j1 ∨ (j = j1 + 1 ∧ j1 + 1 < n).
Proof.
  unfold smaller_child. case_decide; [|naive_solver].
  destruct (Less h (j1 + 1) j1) as [[]|]; naive_solver.
Qed.

(** The loop of [down], from position [i]; it returns the heap and the
    position where it stopped. *)
Equations? down_loop (h : ItemHeap) (i n : nat) : option (ItemHeap * nat)
  by wf (n - i) lt :=
  down_loop h i n with decide (n ≤ 2 * i + 1) => {
    | left _ => Some (h, i)
    | right _ with Equations.Prop.Logic.inspect (smaller_child h (2 * i + 1) n) => {
        | exist _ None Hn => None
        | exist _ (Some j) Hj with Less h j i => {
            | None => None
            | Some false => Some (h, i)
            | Some true with Swap h i j => {
                | None => None
                | Some h' => down_loop h' j n } } } }.
Proof. apply smaller_child_range in Hj. lia. Qed.

(** [down] reports whether the element moved: [return i > i0]. *)
Definition down (h : ItemHeap) (i0 n : nat) : option (ItemHeap * bool) :=
  r ← down_loop h i0 n;
  Some (r.1, bool_decide (i0 < r.2)).

(** [heap.Init]: [for i := n/2 - 1; i >= 0; i-- { down(h, i, n) }]; [k] is
    [i + 1]. *)
Fixpoint init_loop (k n : nat) (h : ItemHeap) : option ItemHeap :=
  match k with
  | 0 => Some h
  | S i => r ← down h i n; init_loop i n r.1
  end.

Definition heap_Init (h : ItemHeap) : option ItemHeap :=
  init_loop (Len h / 2) (Len h) h.

Definition heap_Push (h : ItemHeap) (x : Z) : option ItemHeap :=
  let h' := Push h x in
  up h' (Len h' - 1).

Definition heap_Fix (h : ItemHeap) (i : nat) : option ItemHeap :=
  r ← down h i (Len h);
  if r.2 : bool then Some r.1 else up r.1 i.

(** *** The methods of [ItemHeap] *)

Definition Init (h : ItemHeap) : option ItemHeap := heap_Init h.

Definition Insert (h : ItemHeap) (x : Z) : option ItemHeap := heap_Push h x.

Definition GetMin (h : ItemHeap) : option Z := items h !! 0.

Definition Remove (h : ItemHeap) (x : Z) : option (ItemHeap * bool) :=
  match index h !! x with
  | None => Some (h, false)
  | Some i =>
      let last := length (items h) - 1 in
      h1 ← Swap h i last;
      let h2 := mkItemHeap (take last (items h1)) (index h1) in
      let h3 := mkItemHeap (items h2) (delete x (index h2)) in
      if decide (i < length (items h3)) then
        h4 ← heap_Fix h3 i; Some (h4, true)
      else Some (h3, true)
  end.

(** *** Runs of operations *)

Inductive op := OpInsert (x : Z) | OpRemove (x : Z).

Definition step (h : ItemHeap) (o : op) : option ItemHeap :=
  match o with
  | OpInsert x => Insert h x
  | OpRemove x => r ← Remove h x; Some r.1
  end.

Fixpoint run (h : ItemHeap) (ops : list op) : option ItemHeap :=
  match ops with
  | [] => Some h
  | o :: ops' => h' ← step h o; run h' ops'
  end.

(** The values present after [ops], starting from the values [S]: those
    inserted and not removed since. *)
Fixpoint present (S : gset Z) (ops : list op) : gset Z :=
  match ops with
  | [] => S
  | OpInsert x :: ops' => present ({[x]} ∪ S) ops'
  | OpRemove x :: ops' => present (S ∖ {[x]}) ops'
  end.

(** No [Insert] of [ops] inserts a value that is present at that moment.
    Runs whose inserted values are pairwise distinct are of this kind. *)
Fixpoint distinct_inserts (S : gset Z) (ops : list op) : Prop :=
  match ops with
  | [] => True
  | OpInsert x :: ops' => (x ∉ S) ∧ distinct_inserts ({[x]} ∪ S) ops'
  | OpRemove x :: ops' => distinct_inserts (S ∖ {[x]}) ops'
  end.

(** The values that [ops] inserts, in order. *)
Definition inserted_values (ops : list op) : list Z :=
  omap (λ o, match o with OpInsert x => Some x | OpRemove _ => None end) ops.

(** The synchronisation of map and slice: every value of the slice is
    mapped to a position that holds it, and the keys of the map are the
    values of the slice. *)
Definition in_sync (h : ItemHeap) : Prop :=
  (∀ v, v ∈ items h →
        ∃ i, index h !! v = Some i ∧ items h !! i = Some v) ∧
  dom (index h) = list_to_set (items h).

End Heap.

(** ** The trie *)

Module Trie.

Definition alphabetSize : nat := 26.

(** A [Node] owns its children: the pointer structure of the Go program is a
    tree, a nil pointer is the slot [None].  The array [[26]*Node] is a list
    whose length [Insert] keeps at [alphabetSize]. *)
#[local] Unset Elimination Schemes.
Inductive Node := mkNode { children : list (option Node); isEndOfWord : bool }.
#[local] Set Elimination Schemes.

Definition NewNode : Node := mkNode (replicate alphabetSize None) false.

Record Trie := mkTrie { root : Node }.

Definition NewTrie : Trie := mkTrie NewNode.

(** A Go string is a sequence of bytes, here [string] over [ascii]. *)
Definition charToIndex (char : ascii) : option nat :=
  if decide (nat_of_ascii "a"%char ≤ nat_of_ascii char ∧
             nat_of_ascii char ≤ nat_of_ascii "z"%char)
  then Some (nat_of_ascii char - nat_of_ascii "a"%char)
  else None.

Definition indexToChar (i : nat) : option ascii :=
  if decide (i < alphabetSize) then Some (ascii_of_nat (nat_of_ascii "a"%char + i))
  else None.

(** [node.children[idx]], with [None] for the nil pointer. *)
Definition child (node : Node) (idx : nat) : option Node :=
  mjoin (children node !! idx).

(** The loop of [Insert] from [currentNode = node] over the rest of the
    word; the node is rebuilt around the updated child.  A panic ends the
    program: the nodes that the loop created before it are not observed. *)
Fixpoint Insert_loop (node : Node) (word : string) : option Node :=
  match word with
  | EmptyString => Some (mkNode (children node) true)
  | String c rest =>
      idx ← charToIndex c;
      let next := default NewNode (child node idx) in
      next' ← Insert_loop next rest;
      Some (mkNode (<[idx:=Some next']> (children node)) (isEndOfWord node))
  end.

Definition Insert (t : Trie) (word : string) : option Trie :=
  r ← Insert_loop (root t) word; Some (mkTrie r).

Fixpoint Search_loop (node : Node) (word : string) : option bool :=
  match word with
  | EmptyString => Some (isEndOfWord node)
  | String c rest =>
      idx ← charToIndex c;
      match child node idx with
      | None => Some false
      | Some next => Search_loop next rest
      end
  end.

Definition Search (t : Trie) (word : string) : option bool :=
  Search_loop (root t) word.

Fixpoint StartsWith_loop (node : Node) (prefix : string) : option bool :=
  match prefix with
  | EmptyString => Some true
  | String c rest =>
      idx ← charToIndex c;
      match child node idx with
      | None => Some false
      | Some next => StartsWith_loop next rest
      end
  end.

Definition StartsWith (t : Trie) (prefix : string) : option bool :=
  StartsWith_loop (root t) prefix.

Fixpoint Delete_loop (node : Node) (word : string) : option (Node * bool) :=
  match word with
  | EmptyString =>
      if negb (isEndOfWord node) then Some (node, false)
      else Some (mkNode (children node) false, true)
  | String c rest =>
      idx ← charToIndex c;
      match child node idx with
      | None => Some (node, false)
      | Some next =>
          r ← Delete_loop next rest;
          Some (mkNode (<[idx:=Some r.1]> (children node)) (isEndOfWord node),
                r.2)
      end
  end.

Definition Delete (t : Trie) (word : string) : option (Trie * bool) :=
  r ← Delete_loop (root t) word; Some (mkTrie r.1, r.2).

(** [collectWordsDFS]: [words] is the slice behind the pointer, threaded
    through the calls; the inner loop runs over the slots in index order,
    [i] being the index of the head of [cs]. *)
Fixpoint collectWordsDFS (node : Node) (currentWord : string)
    (words : list string) : option (list string) :=
  match node with
  | mkNode cs eow =>
      let words := if eow then words ++ [currentWord] else words in
      (fix slots (cs : list (option Node)) (i : nat) (words : list string)
         : option (list string) :=
         match cs with
         | [] => Some words
         | None :: cs' => slots cs' (S i) words
         | Some childNode :: cs' =>
             char ← indexToChar i;
             words' ← collectWordsDFS childNode
                        (currentWord +:+ String char EmptyString) words;
             slots cs' (S i) words'
         end) cs 0 words
  end.

(** The loop over the slots in [collectWordsDFS], as a function of its own
    to state its properties. *)
Definition collectSlots (currentWord : string)
  : list (option Node) → nat → list string → option (list string) :=
  fix slots cs i words :=
    match cs with
    | [] => Some words
    | None :: cs' => slots cs' (S i) words
    | Some childNode :: cs' =>
        char ← indexToChar i;
        words' ← collectWordsDFS childNode
                   (currentWord +:+ String char EmptyString) words;
        slots cs' (S i) words'
    end.

Lemma collectWordsDFS_unfold cs e currentWord words :
  collectWordsDFS (mkNode cs e) currentWord words =
    collectSlots currentWord cs 0
      (if e then words ++ [currentWord] else words).
Proof. reflexivity. Qed.

Fixpoint Collect_loop (node : Node) (rest prefix : string)
  : option (list string) :=
  match rest with
  | EmptyString => collectWordsDFS node prefix []
  | String c rest' =>
      idx ← charToIndex c;
      match child node idx with
      | None => Some []
      | Some next => Collect_loop next rest' prefix
      end
  end.

Definition CollectAllWordsStartingWith (t : Trie) (prefix : string)
  : option (list string) :=
  Collect_loop (root t) prefix prefix.

(** *** Paths and words, to state properties *)

Definition is_lower (c : ascii) : bool :=
  bool_decide (nat_of_ascii "a"%char ≤ nat_of_ascii c ∧
               nat_of_ascii c ≤ nat_of_ascii "z"%char).

Fixpoint lowercase (w : string) : bool :=
  match w with
  | EmptyString => true
  | String c rest => is_lower c && lowercase rest
  end.

(** The node at the end of the path that spells [w] from [node], if that
    path exists: the walk [currentNode = currentNode.children[idx]] that the
    five methods share, without their panic. *)
Fixpoint descend (node : Node) (w : string) : option Node :=
  match w with
  | EmptyString => Some node
  | String c rest =>
      idx ← charToIndex c; next ← child node idx; descend next rest
  end.

(** The end-of-word flag at the end of the path of [w]; [false] without a
    path. *)
Definition flag (node : Node) (w : string) : bool :=
  from_option isEndOfWord false (descend node w).

(** The tree without its flags: which nodes exist. *)
Fixpoint shape (node : Node) : Node :=
  match node with
  | mkNode cs _ => mkNode (fmap (M:=list) (fmap (M:=option) shape) cs) false
  end.

(** Every node has its [alphabetSize] slots. *)
#[local] Unset Elimination Schemes.
Inductive wf : Node → Prop :=
  | wf_node cs e :
      length cs = alphabetSize →
      Forall (λ c, ∀ n, c = Some n → wf n) cs →
      wf (mkNode cs e).
#[local] Set Elimination Schemes.

(** Byte-wise lexicographic order, Go's order on strings. *)
Definition lex_lt (a b : string) : Prop := String.compare a b = Lt.

(** *** Runs of operations *)

Inductive op := OpInsert (w : string) | OpDelete (w : string).

Definition op_word (o : op) : string :=
  match o with OpInsert w | OpDelete w => w end.

(** [w] was inserted, possibly deleted since. *)
Definition inserted (ops : list op) (w : string) : Prop := OpInsert w ∈ ops.

(** [w] was inserted and not deleted afterwards. *)
Definition stored (ops : list op) (w : string) : Prop :=
  ∃ before after, ops = before ++ OpInsert w :: after ∧ OpDelete w ∉ after.

Definition step (t : Trie) (o : op) : option Trie :=
  match o with
  | OpInsert w => Insert t w
  | OpDelete w => r ← Delete t w; Some r.1
  end.

Fixpoint run (t : Trie) (ops : list op) : option Trie :=
  match ops with
  | [] => Some t
  | o :: ops' => t' ← step t o; run t' ops'
  end.

(** The tries that lowercase insertions and deletions build. *)
Definition reachable (t : Trie) : Prop :=
  ∃ ops, Forall (λ o, lowercase (op_word o) = true) ops ∧
         run NewTrie ops = Some t.

End Trie.


(** * Properties of the indexed heap *)

Module HeapFacts.
Import Heap.

(** ** Unfolding the loops *)

Ltac rewrite_results :=
  repeat match goal with
  | H : sigmaI _ _ _ = _ |- _ => clear H
  end;
  repeat match goal with
  | H : decide _ = _ |- _ => rewrite H; clear H
  | H : smaller_child _ _ _ = _ |- _ => rewrite H; clear H
  | H : Less _ _ _ = _ |- _ => rewrite H; clear H
  | H : Swap _ _ _ = _ |- _ => rewrite H; clear H
  end.

Lemma up_unfold h j :
  up h j =
    if decide ((j - 1) / 2 = j) then Some h
    else match Less h j ((j - 1) / 2) with
         | None => None
         | Some false => Some h
         | Some true =>
             match Swap h ((j - 1) / 2) j with
             | None => None
             | Some h' => up h' ((j - 1) / 2)
             end
         end.
Proof. funelim (up h j); rewrite_results; done. Qed.

Lemma down_loop_unfold h i n :
  down_loop h i n =
    if decide (n ≤ 2 * i + 1) then Some (h, i)
    else match smaller_child h (2 * i + 1) n with
         | None => None
         | Some j =>
             match Less h j i with
             | None => None
             | Some false => Some (h, i)
             | Some true =>
                 match Swap h i j with
                 | None => None
                 | Some h' => down_loop h' j n
                 end
             end
         end.
Proof. funelim (down_loop h i n); rewrite_results; done. Qed.

(** ** Heap order on positions

    The order is stated on the function [f] from positions to values and
    the length [n], with children instead of parents: [c] is a child of [i]
    when [c = 2*i + 1] or [c = 2*i + 2], that is when [c > 0] and
    [(c - 1) / 2 = i]. *)

Definition child (i c : nat) : Prop := c = 2 * i + 1 ∨ c = 2 * i + 2.

Definition ordered (n : nat) (f : nat → Z) : Prop :=
  ∀ i c, c < n → child i c → (f i ≤ f c)%Z.

(** Heap order everywhere but around position [x]: the pairs that do not
    involve [x] are in order, and the parent of [x] is below the children
    of [x]. *)
Definition hole (n : nat) (f : nat → Z) (x : nat) : Prop :=
  (∀ i c, c < n → child i c → i ≠ x → c ≠ x → (f i ≤ f c)%Z) ∧
  (∀ g c, c < n → child g x → child x c → (f g ≤ f c)%Z).

Definition swapf (f : nat → Z) (i j : nat) : nat → Z :=
  λ k, if decide (k = i) then f j else if decide (k = j) then f i else f k.

Lemma child_parent c : 0 < c → child ((c - 1) / 2) c.
Proof. unfold child. dlia. Qed.

Lemma parent_child i c : child i c → 0 < c ∧ (c - 1) / 2 = i.
Proof. unfold child. dlia. Qed.

Lemma hole_filled n f x :
  hole n f x →
  (∀ c, c < n → child x c → (f x ≤ f c)%Z) →
  (∀ g, x < n → child g x → (f g ≤ f x)%Z) →
  ordered n f.
Proof.
  intros [H1 _] Hdown Hup i c Hc Hic.
  specialize (H1 i c). specialize (Hdown c). specialize (Hup i).
  destruct (decide (i = x)) as [->|]; [by apply Hdown|].
  destruct (decide (c = x)) as [->|]; [by apply Hup|]. by apply H1.
Qed.

Lemma up_step n f j p :
  hole n f j →
  (∀ c, c < n → child j c → (f j ≤ f c)%Z) →
  child p j → j < n → (f j < f p)%Z →
  hole n (swapf f p j) p ∧
  (∀ c, c < n → child p c → (swapf f p j p ≤ swapf f p j c)%Z).
Proof.
  intros [H1 H2] Hch Hpj Hj Hlt. unfold swapf, child in *.
  split; [split|].
  - intros i c Hc Hic Hi Hcp.
    pose proof (H1 i c Hc Hic). pose proof (H2 p c Hc Hpj).
    repeat case_decide; subst; unfold child in *; lia.
  - intros g c Hc Hg Hpc.
    pose proof (H1 g p ltac:(lia) Hg). pose proof (H1 p c Hc Hpc).
    repeat case_decide; subst; unfold child in *; lia.
  - intros c Hc Hpc. pose proof (H1 p c Hc Hpc).
    repeat case_decide; subst; unfold child in *; lia.
Qed.

Lemma down_step n f x j :
  hole n f x →
  child x j → j < n →
  (∀ s, s < n → child x s → (f j ≤ f s)%Z) →
  (f j < f x)%Z →
  hole n (swapf f x j) j ∧
  (∀ g, child g j → (swapf f x j g ≤ swapf f x j j)%Z).
Proof.
  intros [H1 H2] Hxj Hj Hmin Hlt. unfold swapf, child in *.
  split; [split|].
  - intros i c Hc Hic Hi Hcj.
    pose proof (H1 i c Hc Hic). pose proof (Hmin c Hc).
    pose proof (H2 i j Hj).
    repeat case_decide; subst; unfold child in *; lia.
  - intros g c Hc Hg Hjc. pose proof (H1 j c Hc Hjc).
    repeat case_decide; subst; unfold child in *; lia.
  - intros g Hg. repeat case_decide; subst; unfold child in *; lia.
Qed.

Lemma ordered_root_min n f : ordered n f → ∀ k, k < n → (f 0%nat ≤ f k)%Z.
Proof.
  intros Hord k. induction k as [k IH] using lt_wf_ind. intros Hk.
  destruct (decide (k = 0)) as [->|Hk0]; [done|].
  pose proof (child_parent k) as Hch.
  assert ((k - 1) / 2 < k) as Hlt by dlia.
  specialize (IH _ Hlt). specialize (Hord _ k Hk (Hch ltac:(lia))). lia.
Qed.

Lemma hole_ext n f g x : (∀ k, f k = g k) → hole n f x → hole n g x.
Proof.
  intros E [H1 H2]. split.
  - intros i c ? ? ? ?. rewrite <-!E. by apply H1.
  - intros i c ? ? ?. rewrite <-!E. by apply H2.
Qed.

Lemma ordered_ext n f g : (∀ k, f k = g k) → ordered n f → ordered n g.
Proof. intros E H i c ? ?. rewrite <-!E. by apply H. Qed.

(** ** The slice and the map *)

(** The value at a position, [0] out of range. *)
Definition val (h : ItemHeap) (k : nat) : Z := default 0%Z (items h !! k).

(** The map is the inverse of the slice: [index[v] = i] exactly when
    [items[i] = v].  It implies that the values of the slice are distinct. *)
Definition synced (h : ItemHeap) : Prop :=
  ∀ v i, index h !! v = Some i ↔ items h !! i = Some v.

Lemma synced_inj h i j v :
  synced h → items h !! i = Some v → items h !! j = Some v → i = j.
Proof. intros Hs Hi%Hs Hj%Hs. congruence. Qed.

Lemma synced_NoDup h : synced h → NoDup (items h).
Proof. intros Hs. apply NoDup_alt. intros i j v. apply synced_inj, Hs. Qed.

Lemma synced_absent h x : synced h → index h !! x = None ↔ x ∉ items h.
Proof.
  intros Hs. rewrite list_elem_of_lookup. split.
  - intros Hx [i Hi%Hs]. congruence.
  - intros Hx. destruct (index h !! x) as [i|] eqn:E; [|done].
    destruct Hx. exists i. by apply Hs.
Qed.

Lemma val_lookup h k v : items h !! k = Some v → val h k = v.
Proof. unfold val. by intros ->. Qed.

Lemma lookup_val h k : k < Len h → items h !! k = Some (val h k).
Proof.
  unfold Len, val. intros [v Hv]%lookup_lt_is_Some. by rewrite Hv.
Qed.

Lemma Less_spec h i j :
  i < Len h → j < Len h →
  Less h i j = Some (bool_decide (val h i < val h j)%Z).
Proof.
  intros Hi%lookup_val Hj%lookup_val. unfold Less. by rewrite Hi, Hj.
Qed.

Lemma Swap_spec h i j :
  synced h → i < Len h → j < Len h →
  ∃ h', Swap h i j = Some h' ∧ Len h' = Len h ∧ synced h' ∧
    (∀ k, items h' !! k =
          if decide (k = i) then items h !! j
          else if decide (k = j) then items h !! i else items h !! k).
Proof.
  intros Hs Hi Hj. pose proof (lookup_val h i Hi) as Ha.
  pose proof (lookup_val h j Hj) as Hb. unfold Len in *.
  set (a := val h i) in *. set (b := val h j) in *.
  unfold Swap. rewrite Ha, Hb. simpl.
  destruct (decide (i = j)) as [->|Hij].
  - assert (a = b) as <- by congruence.
    rewrite !(list_insert_id (items h) j a) by done. rewrite Ha; simpl.
    assert (<[a:=j]> (<[a:=j]> (index h)) = index h) as ->.
    { rewrite insert_insert_eq. apply insert_id. by apply Hs. }
    exists h. destruct h as [l m]; simpl in *.
    split; [reflexivity|]. split; [reflexivity|]. split; [exact Hs|].
    intros k. repeat case_decide; subst; congruence.
  - assert (a ≠ b) as Hab.
    { intros E. apply Hij. apply (synced_inj h i j a); [done..|congruence]. }
    rewrite (list_lookup_insert_ne _ j i) by congruence.
    rewrite (list_lookup_insert_eq (items h) i) by done. simpl.
    rewrite list_lookup_insert_eq by (by rewrite length_insert). simpl.
    eexists. split; [done|]. simpl.
    assert (∀ k, <[j:=a]> (<[i:=b]> (items h)) !! k =
                 if decide (k = i) then items h !! j
                 else if decide (k = j) then items h !! i
                      else items h !! k) as Hlook.
    { intros k. destruct (decide (k = i)) as [->|Hki];
        [|destruct (decide (k = j)) as [->|Hkj]].
      - rewrite list_lookup_insert_ne by congruence.
        by rewrite list_lookup_insert_eq, Hb.
      - by rewrite list_lookup_insert_eq, Ha by (by rewrite length_insert).
      - by rewrite !list_lookup_insert_ne by congruence. }
    split; [by rewrite !length_insert|].
    split; [|by intros k; rewrite Hlook, Ha, Hb].
    intros v k. simpl. rewrite Hlook.
    destruct (decide (v = a)) as [->|Hva]; [|destruct (decide (v = b)) as [->|Hvb]].
    + rewrite lookup_insert_eq. repeat case_decide; subst.
      * split; congruence.
      * by rewrite Ha.
      * split; [congruence|]. intros Hk.
        assert (k = i) by by apply (synced_inj h k i a). congruence.
    + rewrite lookup_insert_ne, lookup_insert_eq by done.
      repeat case_decide; subst.
      * by rewrite Hb.
      * split; congruence.
      * split; [congruence|]. intros Hk.
        assert (k = j) by by apply (synced_inj h k j b). congruence.
    + rewrite !lookup_insert_ne by done. rewrite (Hs v k).
      repeat case_decide; subst; [split; congruence..|done].
Qed.

Lemma Swap_val h i j h' :
  (∀ k, items h' !! k =
        if decide (k = i) then items h !! j
        else if decide (k = j) then items h !! i else items h !! k) →
  ∀ k, swapf (val h) i j k = val h' k.
Proof.
  intros H k. unfold swapf, val. rewrite H. by repeat case_decide.
Qed.

Lemma Swap_elem_of h i j h' :
  i < Len h → j < Len h →
  (∀ k, items h' !! k =
        if decide (k = i) then items h !! j
        else if decide (k = j) then items h !! i else items h !! k) →
  ∀ v, v ∈ items h' ↔ v ∈ items h.
Proof.
  intros Hi Hj H v. rewrite !list_elem_of_lookup. split.
  - intros [k Hk]. rewrite H in Hk. repeat case_decide; eauto.
  - intros [k Hk]. destruct (decide (k = i)) as [->|];
      [|destruct (decide (k = j)) as [->|]].
    + exists j. rewrite H. repeat case_decide; subst; done.
    + exists i. rewrite H. by rewrite decide_True.
    + exists k. rewrite H. by rewrite !decide_False.
Qed.

(** ** Sifting *)

(** The invariant of the heap: map and slice agree, and the slice is in
    heap order. *)
Definition good (h : ItemHeap) : Prop :=
  synced h ∧ ordered (Len h) (val h).

(** [h'] holds the values of [h], as many. *)
Definition same_content (h h' : ItemHeap) : Prop :=
  Len h' = Len h ∧ ∀ v, v ∈ items h' ↔ v ∈ items h.

Lemma same_content_refl h : same_content h h.
Proof. by split. Qed.

Lemma same_content_trans h1 h2 h3 :
  same_content h1 h2 → same_content h2 h3 → same_content h1 h3.
Proof.
  intros [L1 E1] [L2 E2]. split; [congruence|]. intros v. by rewrite E2, E1.
Qed.

Lemma Swap_good_step h i j :
  synced h → i < Len h → j < Len h →
  ∃ h', Swap h i j = Some h' ∧ synced h' ∧ same_content h h' ∧
        ∀ k, swapf (val h) i j k = val h' k.
Proof.
  intros Hs Hi Hj.
  destruct (Swap_spec h i j Hs Hi Hj) as (h' & Hsw & Hlen & Hs' & Hlook).
  exists h'. split; [done|]. split; [done|]. split.
  - split; [done|]. by apply (Swap_elem_of h i j).
  - by apply Swap_val.
Qed.

Lemma up_spec j :
  ∀ h, synced h → j < Len h → hole (Len h) (val h) j →
       (∀ c, c < Len h → child j c → (val h j ≤ val h c)%Z) →
       ∃ h', up h j = Some h' ∧ good h' ∧ same_content h h'.
Proof.
  induction j as [j IH] using lt_wf_ind. intros h Hs Hj Hhole Hdown.
  rewrite up_unfold. case_decide as Hroot.
  - exists h. split; [done|]. split; [|apply same_content_refl].
    split; [done|]. apply (hole_filled _ _ j); [done..|].
    intros g _ Hg. unfold child in Hg. dlia.
  - assert (0 < j) as Hpos by (destruct j; [done|lia]).
    pose proof (child_parent j Hpos) as Hpj.
    assert ((j - 1) / 2 < j) as Hlt by dlia.
    remember ((j - 1) / 2) as p eqn:Hp.
    rewrite Less_spec by lia. case_bool_decide as Hless.
    + destruct (Swap_good_step h p j Hs) as (h1 & -> & Hs1 & Hc1 & Hval);
        [lia..|].
      destruct (up_step _ _ _ _ Hhole Hdown Hpj Hj Hless) as [Hhole1 Hdown1].
      destruct Hc1 as [Hlen1 Hin1].
      destruct (IH p Hlt h1) as (h' & Hup & Hgood & Hc'); [done|lia|..].
      * rewrite Hlen1. by eapply hole_ext.
      * rewrite Hlen1. intros c Hc Hpc. rewrite <-!Hval. by apply Hdown1.
      * exists h'. split; [done|]. split; [done|].
        by eapply same_content_trans.
    + exists h. split; [done|]. split; [|apply same_content_refl].
      split; [done|]. apply (hole_filled _ _ j); [done..|].
      intros g _ Hg. apply parent_child in Hg as [_ Hg].
      assert (g = p) as -> by congruence. lia.
Qed.

Lemma smaller_child_pick h j1 n :
  n = Len h → j1 < n →
  ∃ j, smaller_child h j1 n = Some j ∧ (j = j1 ∨ j = j1 + 1) ∧ j < n ∧
       ∀ s, s < n → s = j1 ∨ s = j1 + 1 → (val h j ≤ val h s)%Z.
Proof.
  intros -> Hlt. unfold smaller_child. case_decide as H2.
  - rewrite Less_spec by lia. simpl. case_bool_decide as Hless.
    + exists (j1 + 1). split; [done|]. split; [lia|]. split; [done|].
      intros s Hs [->| ->]; lia.
    + exists j1. split; [done|]. split; [lia|]. split; [done|].
      intros s Hs [->| ->]; lia.
  - exists j1. split; [done|]. split; [lia|]. split; [done|].
    intros s Hs [->| ->]; lia.
Qed.

Lemma smaller_child_spec h i n :
  n = Len h → 2 * i + 1 < n →
  ∃ j, smaller_child h (2 * i + 1) n = Some j ∧ child i j ∧ j < n ∧
       ∀ s, s < n → child i s → (val h j ≤ val h s)%Z.
Proof.
  intros Hn Hlt.
  destruct (smaller_child_pick h (2 * i + 1) n Hn Hlt) as (j & E & Hj & Hjn & Hmin).
  exists j. split; [done|]. unfold child. split; [lia|]. split; [done|].
  intros s Hs Hc. apply Hmin; [done|lia].
Qed.

Lemma no_child_filled n f i :
  hole n f i → n ≤ 2 * i + 1 →
  ∀ c, c < n → child i c → (f i ≤ f c)%Z.
Proof. intros _ Hn c Hc Hic. unfold child in Hic. lia. Qed.

Lemma down_loop_spec m :
  ∀ h i, Len h - i = m → synced h → i < Len h → hole (Len h) (val h) i →
         (∀ g, child g i → (val h g ≤ val h i)%Z) →
         ∃ h' i', down_loop h i (Len h) = Some (h', i') ∧ i ≤ i' ∧
                  good h' ∧ same_content h h'.
Proof.
  induction m as [m IH] using lt_wf_ind. intros h i Hm Hs Hi Hhole Hup.
  rewrite down_loop_unfold. case_decide as Hleaf.
  - exists h, i. split; [done|]. split; [done|].
    split; [|apply same_content_refl]. split; [done|].
    apply (hole_filled _ _ i); [done| |by intros g _; apply Hup].
    by apply no_child_filled.
  - destruct (smaller_child_spec h i (Len h)) as (j & -> & Hij & Hj & Hmin);
      [done|lia|].
    rewrite Less_spec by done. case_bool_decide as Hless.
    + destruct (Swap_good_step h i j Hs) as (h1 & -> & Hs1 & Hc1 & Hval);
        [lia..|].
      destruct (down_step _ _ _ _ Hhole Hij Hj Hmin Hless) as [Hhole1 Hup1].
      pose proof Hc1 as [Hlen1 Hin1]. rewrite <-Hlen1.
      destruct (IH (Len h1 - j)) with (h := h1) (i := j)
        as (h' & i' & Hdown & Hle & Hgood & Hc'); [| |done|lia|..].
      * unfold child in Hij. lia.
      * done.
      * rewrite Hlen1. by eapply hole_ext.
      * intros g Hg. rewrite <-!Hval. by apply Hup1.
      * exists h', i'. split; [done|]. split; [unfold child in Hij; lia|].
        split; [done|]. by eapply same_content_trans.
    + exists h, i. split; [done|]. split; [done|].
      split; [|apply same_content_refl]. split; [done|].
      apply (hole_filled _ _ i); [done| |by intros g _; apply Hup].
      intros c Hc Hic. specialize (Hmin c Hc Hic). lia.
Qed.

Lemma heap_Fix_spec h i :
  synced h → i < Len h → hole (Len h) (val h) i →
  ∃ h', heap_Fix h i = Some h' ∧ good h' ∧ same_content h h'.
Proof.
  intros Hs Hi Hhole. unfold heap_Fix, down. rewrite down_loop_unfold.
  case_decide as Hleaf.
  - simpl. rewrite bool_decide_eq_false_2 by lia.
    apply up_spec; [done..|]. by apply no_child_filled.
  - destruct (smaller_child_spec h i (Len h)) as (j & -> & Hij & Hj & Hmin);
      [done|lia|].
    rewrite Less_spec by done. case_bool_decide as Hless.
    + destruct (Swap_good_step h i j Hs) as (h1 & -> & Hs1 & Hc1 & Hval);
        [lia..|].
      destruct (down_step _ _ _ _ Hhole Hij Hj Hmin Hless) as [Hhole1 Hup1].
      pose proof Hc1 as [Hlen1 Hin1]. rewrite <-Hlen1.
      destruct (down_loop_spec (Len h1 - j) h1 j)
        as (h' & i' & -> & Hle & Hgood & Hc'); [done|done|lia|..].
      * rewrite Hlen1. by eapply hole_ext.
      * intros g Hg. rewrite <-!Hval. by apply Hup1.
      * simpl. rewrite bool_decide_eq_true_2 by (unfold child in Hij; lia).
        exists h'. split; [done|]. split; [done|].
        by eapply same_content_trans.
    + simpl. rewrite bool_decide_eq_false_2 by lia.
      apply up_spec; [done..|].
      intros c Hc Hic. specialize (Hmin c Hc Hic). lia.
Qed.

(** ** [Push] and [Insert] *)

Lemma Push_Len h x : Len (Push h x) = S (Len h).
Proof. unfold Len, Push; simpl. rewrite length_app; simpl. lia. Qed.

Lemma Push_val h x k : k < Len h → val (Push h x) k = val h k.
Proof. intros Hk. unfold val, Push; simpl. by rewrite lookup_app_l. Qed.

Lemma Push_synced h x : synced h → x ∉ items h → synced (Push h x).
Proof.
  intros Hs Hx v k. unfold Push; simpl.
  destruct (decide (k < length (items h))) as [Hk|Hk].
  - rewrite lookup_app_l by done. destruct (decide (v = x)) as [->|Hv].
    + rewrite lookup_insert_eq. split; [intros [= <-]; lia|].
      intros Hin. destruct Hx. apply list_elem_of_lookup. by exists k.
    + rewrite lookup_insert_ne by done. apply Hs.
  - rewrite lookup_app_r by lia. destruct (decide (v = x)) as [->|Hv].
    + rewrite lookup_insert_eq.
      destruct (k - length (items h)) as [|d] eqn:E; simpl.
      * split; [done|]. intros _. f_equal. lia.
      * split; [intros [= <-]; lia|]. by destruct d.
    + rewrite lookup_insert_ne by done. split.
      * intros Hin%Hs. apply lookup_lt_Some in Hin. lia.
      * destruct (k - length (items h)) as [|[|d]]; simpl; congruence.
Qed.

Lemma Insert_spec h x :
  good h → x ∉ items h →
  ∃ h', Insert h x = Some h' ∧ good h' ∧ Len h' = S (Len h) ∧
        ∀ v, v ∈ items h' ↔ v = x ∨ v ∈ items h.
Proof.
  intros [Hs Hord] Hx. unfold Insert, heap_Push.
  pose proof (Push_Len h x) as Hlen. rewrite Hlen.
  replace (S (Len h) - 1) with (Len h) by lia.
  destruct (up_spec (Len h) (Push h x)) as (h' & -> & Hgood & Hl & Hin).
  - by apply Push_synced.
  - lia.
  - rewrite Hlen. split.
    + intros i c Hc Hic Hi Hcn. unfold child in Hic.
      rewrite !Push_val by lia. apply Hord; [lia|done].
    + intros g c Hc _ Hnc. unfold child in Hnc. lia.
  - intros c Hc Hnc. unfold child in Hnc. lia.
  - exists h'. split; [done|]. split; [done|]. split; [lia|].
    intros v. rewrite Hin. unfold Push; simpl.
    rewrite elem_of_app, list_elem_of_singleton. tauto.
Qed.

(** ** [Remove] *)

Lemma Remove_absent h x : index h !! x = None → Remove h x = Some (h, false).
Proof. intros H. unfold Remove. by rewrite H. Qed.

(** The heap after the exchange with the last slot, the truncation and the
    deletion from the map, before [heap.Fix]. *)
Lemma Remove_cut h x i :
  good h → index h !! x = Some i →
  ∃ h1, Swap h i (Len h - 1) = Some h1 ∧
    let h3 := mkItemHeap (take (Len h - 1) (items h1)) (delete x (index h1)) in
    synced h3 ∧ S (Len h3) = Len h ∧ i < Len h ∧
    (∀ v, v ∈ items h3 ↔ v ∈ items h ∧ v ≠ x) ∧
    (∀ k, k < Len h3 →
          val h3 k = if decide (k = i) then val h (Len h - 1) else val h k).
Proof.
  intros [Hs Hord] Hix. pose proof (proj1 (Hs x i) Hix) as Hi.
  pose proof (lookup_lt_Some _ _ _ Hi) as Hlt. fold (Len h) in Hlt.
  remember (Len h - 1) as last eqn:Hlast.
  destruct (Swap_spec h i last Hs) as (h1 & Hsw & Hlen1 & Hs1 & Hlook); [lia..|].
  exists h1. split; [done|]. cbv zeta.
  assert (items h1 !! last = Some x) as Hx1.
  { rewrite Hlook. case_decide; subst; [done|]. by rewrite decide_True. }
  assert (∀ k v, take last (items h1) !! k = Some v ↔
                 k < last ∧ items h1 !! k = Some v) as Htake.
  { intros k v. destruct (decide (k < last)).
    - rewrite lookup_take_lt by done. tauto.
    - rewrite lookup_take_ge by lia. split; [done|]. intros [? _]. lia. }
  split; [|split; [|split; [done|split]]].
  - intros v k. simpl. rewrite Htake. destruct (decide (v = x)) as [->|Hv].
    + rewrite lookup_delete_eq. split; [done|]. intros [Hk Hkx].
      assert (k = last) by by eapply synced_inj. lia.
    + rewrite lookup_delete_ne by done. rewrite (Hs1 v k). split; [|tauto].
      intros Hk. split; [|done]. pose proof (lookup_lt_Some _ _ _ Hk) as Hkl.
      fold (Len h1) in Hkl. destruct (decide (k = last)) as [->|]; [|lia].
      congruence.
  - unfold Len in *. simpl. rewrite length_take. lia.
  - intros v. simpl. rewrite <-(Swap_elem_of h i last h1) by (done || lia).
    rewrite !list_elem_of_lookup. split.
    + intros [k [Hk Hkv]%Htake]. split; [by exists k|].
      intros ->. assert (k = last) by by eapply synced_inj. lia.
    + intros [[k Hk] Hv]. exists k. apply Htake. split; [|done].
      pose proof (lookup_lt_Some _ _ _ Hk) as Hkl. fold (Len h1) in Hkl.
      destruct (decide (k = last)) as [->|]; [|lia]. congruence.
  - intros k. unfold Len at 1. simpl. rewrite length_take. intros Hk.
    unfold val at 1. simpl. rewrite lookup_take_lt by lia. rewrite Hlook.
    unfold val. repeat case_decide; subst; try done. lia.
Qed.

Lemma Remove_present h x i :
  good h → index h !! x = Some i →
  ∃ h', Remove h x = Some (h', true) ∧ good h' ∧ S (Len h') = Len h ∧
        ∀ v, v ∈ items h' ↔ v ∈ items h ∧ v ≠ x.
Proof.
  intros Hgood Hix.
  destruct (Remove_cut h x i Hgood Hix)
    as (h1 & Hsw & Hs3 & Hlen3 & Hi & Hin3 & Hval3).
  destruct Hgood as [Hs Hord].
  unfold Remove. rewrite Hix. fold (Len h). rewrite Hsw. simpl.
  set (h3 := mkItemHeap (take (Len h - 1) (items h1)) (delete x (index h1))) in *.
  change (length (take (Len h - 1) (items h1))) with (Len h3).
  case_decide as Hcase.
  - destruct (heap_Fix_spec h3 i Hs3 Hcase) as (h' & -> & Hgood' & Hl' & Hin').
    + split.
      * intros p c Hc Hpc Hp Hci. unfold child in Hpc.
        rewrite !Hval3 by lia. rewrite !decide_False by done.
        apply Hord; [lia|done].
      * intros g c Hc Hgi Hic. unfold child in Hgi, Hic.
        rewrite !Hval3 by lia. rewrite !decide_False by lia.
        etrans; [apply (Hord g i)|apply (Hord i c)]; unfold child; lia.
    + exists h'. split; [done|]. split; [done|]. split; [lia|].
      intros v. by rewrite Hin'.
  - exists h3. split; [done|]. split; [|split; [done|done]].
    split; [done|]. intros p c Hc Hpc. unfold child in Hpc.
    rewrite !Hval3 by lia. rewrite !decide_False by lia.
    apply Hord; [lia|done].
Qed.

(** ** Runs *)

(** [h.Init()] on the new heap, as [main] calls it, changes nothing. *)
Lemma Init_new : Init NewItemHeap = Some NewItemHeap.
Proof. reflexivity. Qed.

Lemma good_new : good NewItemHeap.
Proof.
  split.
  - intros v i. unfold NewItemHeap; simpl. by rewrite lookup_empty.
  - intros i c Hc. unfold Len, NewItemHeap in Hc; simpl in Hc. lia.
Qed.

Lemma run_good ops :
  ∀ h (S : gset Z),
    good h → (∀ v, v ∈ items h ↔ v ∈ S) → distinct_inserts S ops →
    ∃ h', run h ops = Some h' ∧ good h' ∧
          ∀ v, v ∈ items h' ↔ v ∈ present S ops.
Proof.
  induction ops as [|[x|x] ops IH]; intros h S Hgood Hin Hd; simpl in *.
  - by exists h.
  - destruct Hd as [Hx Hd].
    destruct (Insert_spec h x Hgood) as (h1 & -> & Hgood1 & _ & Hin1);
      [by rewrite Hin|]. simpl.
    apply IH; [done| |done]. intros v. rewrite Hin1, Hin. set_solver.
  - destruct (index h !! x) as [i|] eqn:Hix.
    + destruct (Remove_present h x i Hgood Hix) as (h1 & -> & Hgood1 & _ & Hin1).
      simpl. apply IH; [done| |done]. intros v. rewrite Hin1, Hin. set_solver.
    + rewrite (Remove_absent h x Hix). simpl. apply IH; [done| |done].
      apply (synced_absent h x (proj1 Hgood)) in Hix.
      assert (x ∉ S) as HxS by (by rewrite <-Hin).
      intros v. rewrite Hin. set_solver.
Qed.

Lemma run_new_good ops :
  distinct_inserts ∅ ops →
  ∃ h, run NewItemHeap ops = Some h ∧ good h ∧
       ∀ v, v ∈ items h ↔ v ∈ present ∅ ops.
Proof.
  intros Hd. apply run_good; [apply good_new| |done].
  intros v. unfold NewItemHeap; simpl. set_solver.
Qed.

(** Pairwise distinct inserted values make a run with [distinct_inserts]. *)
Lemma NoDup_distinct_inserts ops (S : gset Z) :
  NoDup (inserted_values ops) → (∀ x, x ∈ inserted_values ops → x ∉ S) →
  distinct_inserts S ops.
Proof.
  revert S. induction ops as [|[x|x] ops IH]; intros S Hnd Hout; simpl in *;
    [done|..].
  - apply NoDup_cons in Hnd as [Hx Hnd]. split; [apply Hout; by left|].
    apply IH; [done|]. intros y Hy. specialize (Hout y). set_solver.
  - apply IH; [done|]. intros y Hy. specialize (Hout y Hy). set_solver.
Qed.

Lemma present_absent x ops :
  ∀ S : gset Z, x ∉ S → OpInsert x ∉ ops → x ∉ present S ops.
Proof.
  induction ops as [|[y|y] ops IH]; intros S Hx Hno; simpl; [done|..].
  - apply IH; [|set_solver]. assert (x ≠ y) by (intros ->; set_solver).
    set_solver.
  - apply IH; set_solver.
Qed.

Lemma GetMin_root h :
  good h →
  (items h = [] → GetMin h = None) ∧
  (items h ≠ [] →
   ∃ m, GetMin h = Some m ∧ m ∈ items h ∧ ∀ v, v ∈ items h → (m ≤ v)%Z).
Proof.
  intros [Hs Hord]. unfold GetMin. split; [by intros ->|]. intros Hne.
  destruct (items h) as [|m l] eqn:E; [done|]. exists m. simpl.
  split; [done|]. split; [by left|].
  intros v [k Hk]%list_elem_of_lookup. rewrite <-E in Hk.
  pose proof (lookup_lt_Some _ _ _ Hk) as Hlt.
  pose proof (ordered_root_min _ _ Hord k Hlt) as Hmin.
  rewrite (val_lookup h k v Hk) in Hmin.
  by rewrite (val_lookup h 0 m) in Hmin by by rewrite E.
Qed.

(** ** The minimum *)

(** C1. After any run of [Insert]s and [Remove]s on a new heap in which no
    [Insert] inserts a value that is present, as when the values are
    pairwise distinct, [GetMin] on a non-empty heap returns the smallest
    value present; it reads the slice and leaves the heap as it is, so the
    value is still held.  On the empty heap it panics. *)
Theorem GetMin_smallest ops :
  distinct_inserts ∅ ops →
  ∃ h, run NewItemHeap ops = Some h ∧
    (present ∅ ops = ∅ → GetMin h = None) ∧
    (present ∅ ops ≠ ∅ →
     ∃ m, GetMin h = Some m ∧ m ∈ present ∅ ops ∧ m ∈ items h ∧
          ∀ v, v ∈ present ∅ ops → (m ≤ v)%Z).
Proof.
  intros Hd. destruct (run_new_good ops Hd) as (h & Hrun & Hgood & Hin).
  exists h. split; [done|]. destruct (GetMin_root h Hgood) as [Hemp Hmin].
  split.
  - intros He. apply Hemp. destruct (items h) as [|v l] eqn:E; [done|].
    specialize (Hin v). rewrite He in Hin. set_solver.
  - intros Hne. destruct Hmin as (m & Hget & Hm & Hle).
    + intros E. apply Hne. apply set_eq. intros v. rewrite <-Hin, E.
      set_solver.
    + exists m. split; [done|]. split; [by apply Hin|]. split; [done|].
      intros v Hv. by apply Hle, Hin.
Qed.

Lemma GetMin_smallest_witness :
  distinct_inserts ∅ [OpInsert 5; OpInsert 3; OpInsert 8; OpRemove 3]%Z ∧
  ∃ h, run NewItemHeap [OpInsert 5; OpInsert 3; OpInsert 8; OpRemove 3]%Z
       = Some h ∧
    (present ∅ [OpInsert 5; OpInsert 3; OpInsert 8; OpRemove 3]%Z = ∅ →
     GetMin h = None) ∧
    (present ∅ [OpInsert 5; OpInsert 3; OpInsert 8; OpRemove 3]%Z ≠ ∅ →
     ∃ m, GetMin h = Some m ∧
          m ∈ present ∅ [OpInsert 5; OpInsert 3; OpInsert 8; OpRemove 3]%Z ∧
          m ∈ items h ∧
          ∀ v, v ∈ present ∅ [OpInsert 5; OpInsert 3; OpInsert 8; OpRemove 3]%Z →
               (m ≤ v)%Z).
Proof.
  assert (distinct_inserts ∅
            [OpInsert 5; OpInsert 3; OpInsert 8; OpRemove 3]%Z) as H.
  { simpl. repeat split; by vm_compute. }
  split; [exact H|]. exact (GetMin_smallest _ H).
Defined.

(** ** Synchronisation under each mutation *)

Lemma synced_in_sync h : synced h → in_sync h.
Proof.
  intros Hs. split.
  - intros v [i Hi]%list_elem_of_lookup. exists i. split; [by apply Hs|done].
  - apply set_eq. intros v.
    rewrite elem_of_dom, elem_of_list_to_set, list_elem_of_lookup.
    split; intros [i Hi]; exists i; by apply Hs.
Qed.

Lemma in_sync_synced h : in_sync h → NoDup (items h) → synced h.
Proof.
  intros [Hpos Hdom] Hnd v i. split.
  - intros Hi. assert (v ∈ items h) as Hv.
    { apply (elem_of_list_to_set (C:=gset Z)). rewrite <-Hdom.
      apply elem_of_dom. by eexists. }
    destruct (Hpos v Hv) as (i' & Hi' & Hl). congruence.
  - intros Hi. assert (v ∈ items h) as Hv
      by (apply list_elem_of_lookup; by exists i).
    destruct (Hpos v Hv) as (i' & Hi' & Hl).
    by rewrite (NoDup_lookup _ _ _ _ Hnd Hi Hl).
Qed.

Lemma Less_Some h i j b : Less h i j = Some b → i < Len h ∧ j < Len h.
Proof.
  unfold Less, Len. destruct (items h !! i) eqn:Ei; simpl; [|done].
  destruct (items h !! j) eqn:Ej; simpl; [|done].
  intros _. split; by eapply lookup_lt_Some.
Qed.

Lemma Swap_synced h i j h' :
  synced h → Swap h i j = Some h' → synced h' ∧ same_content h h'.
Proof.
  intros Hs Hsw. assert (i < Len h ∧ j < Len h) as [Hi Hj].
  { unfold Swap, Len in *. destruct (items h !! i) eqn:Ei; simpl in *; [|done].
    destruct (items h !! j) eqn:Ej; simpl in *; [|done].
    split; by eapply lookup_lt_Some. }
  destruct (Swap_good_step h i j Hs Hi Hj) as (h1 & Hsw1 & Hs1 & Hc1 & _).
  by assert (h1 = h') as <- by congruence.
Qed.

Lemma up_synced j :
  ∀ h h', synced h → up h j = Some h' → synced h' ∧ same_content h h'.
Proof.
  induction j as [j IH] using lt_wf_ind. intros h h' Hs.
  rewrite up_unfold. case_decide as Hroot.
  - intros [= <-]. split; [done|apply same_content_refl].
  - destruct (Less h j ((j - 1) / 2)) as [[|]|] eqn:Hl; [| |done].
    + destruct (Swap h ((j - 1) / 2) j) as [h1|] eqn:Hsw; [|done].
      destruct (Swap_synced _ _ _ _ Hs Hsw) as [Hs1 Hc1]. intros Hup.
      destruct (IH ((j - 1) / 2) ltac:(dlia) h1 h' Hs1 Hup) as [Hs' Hc'].
      split; [done|]. by eapply same_content_trans.
    + intros [= <-]. split; [done|apply same_content_refl].
Qed.

Lemma down_loop_synced n m :
  ∀ h i h' i', n - i = m → synced h → down_loop h i n = Some (h', i') →
               synced h' ∧ same_content h h'.
Proof.
  induction m as [m IH] using lt_wf_ind. intros h i h' i' Hm Hs.
  rewrite down_loop_unfold. case_decide as Hleaf.
  - intros [= <- <-]. split; [done|apply same_content_refl].
  - destruct (smaller_child h (2 * i + 1) n) as [j|] eqn:Hj; [|done].
    apply smaller_child_range in Hj.
    destruct (Less h j i) as [[|]|] eqn:Hl; [| |done].
    + destruct (Swap h i j) as [h1|] eqn:Hsw; [|done].
      destruct (Swap_synced _ _ _ _ Hs Hsw) as [Hs1 Hc1]. intros Hdown.
      destruct (IH (n - j) ltac:(lia) h1 j h' i' eq_refl Hs1 Hdown)
        as [Hs' Hc'].
      split; [done|]. by eapply same_content_trans.
    + intros [= <- <-]. split; [done|apply same_content_refl].
Qed.

Lemma heap_Fix_synced h i h' :
  synced h → heap_Fix h i = Some h' → synced h' ∧ same_content h h'.
Proof.
  intros Hs. unfold heap_Fix, down.
  destruct (down_loop h i (Len h)) as [[h1 i1]|] eqn:Hd; simpl; [|done].
  destruct (down_loop_synced _ _ _ _ _ _ eq_refl Hs Hd) as [Hs1 Hc1].
  case_bool_decide.
  - intros [= <-]. done.
  - intros Hup. destruct (up_synced _ _ _ Hs1 Hup) as [Hs' Hc'].
    split; [done|]. by eapply same_content_trans.
Qed.

Lemma Pop_synced h h' x :
  synced h → Pop h = Some (h', x) →
  synced h' ∧ S (Len h') = Len h ∧ ∀ v, v ∈ items h' ↔ v ∈ items h ∧ v ≠ x.
Proof.
  intros Hs. unfold Pop. fold (Len h).
  destruct (items h !! (Len h - 1)) as [y|] eqn:Hlast; simpl; [|done].
  intros [= <- <-]. pose proof (lookup_lt_Some _ _ _ Hlast) as Hlt.
  fold (Len h) in Hlt. remember (Len h - 1) as last eqn:El.
  assert (∀ k v, take last (items h) !! k = Some v ↔
                 k < last ∧ items h !! k = Some v) as Htake.
  { intros k v. destruct (decide (k < last)).
    - rewrite lookup_take_lt by done. tauto.
    - rewrite lookup_take_ge by lia. split; [done|]. intros [? _]. lia. }
  split; [|split].
  - intros v k. simpl. rewrite Htake. destruct (decide (v = y)) as [->|Hv].
    + rewrite lookup_delete_eq. split; [done|]. intros [Hk Hky].
      assert (k = last) by by eapply synced_inj. lia.
    + rewrite lookup_delete_ne by done. rewrite (Hs v k). split; [|tauto].
      intros Hk. split; [|done]. pose proof (lookup_lt_Some _ _ _ Hk) as Hkl.
      fold (Len h) in Hkl. destruct (decide (k = last)) as [->|]; [|lia].
      congruence.
  - unfold Len in *. simpl. rewrite length_take. lia.
  - intros v. simpl. rewrite !list_elem_of_lookup. split.
    + intros [k [Hk Hkv]%Htake]. split; [by exists k|].
      intros ->. assert (k = last) by by eapply synced_inj. lia.
    + intros [[k Hk] Hv]. exists k. apply Htake. split; [|done].
      pose proof (lookup_lt_Some _ _ _ Hk) as Hkl. fold (Len h) in Hkl.
      destruct (decide (k = last)) as [->|]; [|lia]. congruence.
Qed.

(** C2. After any run of [Insert]s and [Remove]s on a new heap in which no
    [Insert] inserts a value that is present, map and slice are in sync:
    every value [v] of [items] has [items[index[v]] = v], and the keys of
    [index] are the values of [items], which are distinct.  Each
    mutation keeps it so, from any heap in sync with distinct values: [Push]
    of a value that is not held, [Swap], [Pop] and [heap.Fix]. *)
Theorem index_in_sync ops :
  distinct_inserts ∅ ops →
  (∃ h, run NewItemHeap ops = Some h ∧ in_sync h ∧ NoDup (items h)) ∧
  (∀ h x, in_sync h → NoDup (items h) → x ∉ items h →
          in_sync (Push h x) ∧ NoDup (items (Push h x))) ∧
  (∀ h i j h', in_sync h → NoDup (items h) → Swap h i j = Some h' →
               in_sync h' ∧ NoDup (items h')) ∧
  (∀ h h' x, in_sync h → NoDup (items h) → Pop h = Some (h', x) →
             in_sync h' ∧ NoDup (items h')) ∧
  (∀ h i h', in_sync h → NoDup (items h) → heap_Fix h i = Some h' →
             in_sync h' ∧ NoDup (items h')).
Proof.
  intros Hd. split; [|split; [|split; [|split]]].
  - destruct (run_new_good ops Hd) as (h & Hrun & [Hs _] & _).
    exists h. split; [done|]. split; [by apply synced_in_sync|].
    by apply synced_NoDup.
  - intros h x Hi Hnd Hx. pose proof (in_sync_synced h Hi Hnd) as Hs.
    pose proof (Push_synced h x Hs Hx) as Hs'.
    split; [by apply synced_in_sync|by apply synced_NoDup].
  - intros h i j h' Hi Hnd Hsw. pose proof (in_sync_synced h Hi Hnd) as Hs.
    destruct (Swap_synced _ _ _ _ Hs Hsw) as [Hs' _].
    split; [by apply synced_in_sync|by apply synced_NoDup].
  - intros h h' x Hi Hnd Hpop. pose proof (in_sync_synced h Hi Hnd) as Hs.
    destruct (Pop_synced _ _ _ Hs Hpop) as [Hs' _].
    split; [by apply synced_in_sync|by apply synced_NoDup].
  - intros h i h' Hi Hnd Hfix. pose proof (in_sync_synced h Hi Hnd) as Hs.
    destruct (heap_Fix_synced _ _ _ Hs Hfix) as [Hs' _].
    split; [by apply synced_in_sync|by apply synced_NoDup].
Qed.

Lemma index_in_sync_witness :
  distinct_inserts ∅ [OpInsert 5; OpInsert 3; OpInsert 8; OpRemove 3]%Z ∧
  (∃ h, run NewItemHeap [OpInsert 5; OpInsert 3; OpInsert 8; OpRemove 3]%Z
        = Some h ∧ in_sync h ∧ NoDup (items h)) ∧
  (∀ h x, in_sync h → NoDup (items h) → x ∉ items h →
          in_sync (Push h x) ∧ NoDup (items (Push h x))) ∧
  (∀ h i j h', in_sync h → NoDup (items h) → Swap h i j = Some h' →
               in_sync h' ∧ NoDup (items h')) ∧
  (∀ h h' x, in_sync h → NoDup (items h) → Pop h = Some (h', x) →
             in_sync h' ∧ NoDup (items h')) ∧
  (∀ h i h', in_sync h → NoDup (items h) → heap_Fix h i = Some h' →
             in_sync h' ∧ NoDup (items h')).
Proof.
  assert (distinct_inserts ∅
            [OpInsert 5; OpInsert 3; OpInsert 8; OpRemove 3]%Z) as H.
  { simpl. repeat split; by vm_compute. }
  split; [exact H|]. exact (index_in_sync _ H).
Defined.

(** C3. After any run of [Insert]s and [Remove]s on a new heap in which no
    [Insert] inserts a value that is present: [Remove x] of a value that is
    not present returns false and leaves slice and map as they are;
    [Remove x] of a present value returns true, the heap holds one value
    less, namely all the former ones but [x], and [x] is neither in the
    slice nor in the map; [GetMin] does not return [x] then, nor after
    further operations that do not insert [x] again. *)
Theorem Remove_present_or_absent ops :
  distinct_inserts ∅ ops →
  ∃ h, run NewItemHeap ops = Some h ∧
    ∀ x,
      (x ∉ present ∅ ops → Remove h x = Some (h, false)) ∧
      (x ∈ present ∅ ops →
       ∃ h', Remove h x = Some (h', true) ∧
         (x ∉ items h') ∧ index h' !! x = None ∧
         S (length (items h')) = length (items h) ∧
         (∀ v, v ∈ items h' ↔ v ∈ items h ∧ v ≠ x) ∧
         GetMin h' ≠ Some x ∧
         (∀ ops', distinct_inserts (present ∅ ops ∖ {[x]}) ops' →
                  OpInsert x ∉ ops' →
                  ∃ h'', run h' ops' = Some h'' ∧ (x ∉ items h'') ∧
                         GetMin h'' ≠ Some x)).
Proof.
  intros Hd. destruct (run_new_good ops Hd) as (h & Hrun & Hgood & Hin).
  exists h. split; [done|]. intros x. split.
  - intros Hx. apply Remove_absent. apply synced_absent; [apply Hgood|].
    by rewrite Hin.
  - intros Hx. apply Hin in Hx.
    destruct (index h !! x) as [i|] eqn:Hix;
      [|by apply (synced_absent h x (proj1 Hgood)) in Hix].
    destruct (Remove_present h x i Hgood Hix) as (h' & Hrem & Hgood' & Hlen & Hin').
    exists h'. split; [done|].
    assert (x ∉ items h') as Hout by (rewrite Hin'; tauto).
    assert (∀ g, x ∉ items g → GetMin g ≠ Some x) as Hget.
    { intros g Hg E. apply Hg. apply list_elem_of_lookup. by exists 0. }
    split; [done|]. split; [by apply synced_absent; [apply Hgood'|]|].
    split; [done|]. split; [done|]. split; [by apply Hget|].
    intros ops' Hd' Hno.
    destruct (run_good ops' h' (present ∅ ops ∖ {[x]}) Hgood')
      as (h'' & Hrun' & _ & Hin''); [|done|].
    + intros v. rewrite Hin', Hin. set_solver.
    + exists h''. split; [done|].
      assert (x ∉ items h'') as Hout''.
      { rewrite Hin''. apply present_absent; [set_solver|done]. }
      split; [done|by apply Hget].
Qed.

Lemma Remove_present_or_absent_witness :
  distinct_inserts ∅ [OpInsert 5; OpInsert 3; OpInsert 8]%Z ∧
  ∃ h, run NewItemHeap [OpInsert 5; OpInsert 3; OpInsert 8]%Z = Some h ∧
    ∀ x,
      (x ∉ present ∅ [OpInsert 5; OpInsert 3; OpInsert 8]%Z →
       Remove h x = Some (h, false)) ∧
      (x ∈ present ∅ [OpInsert 5; OpInsert 3; OpInsert 8]%Z →
       ∃ h', Remove h x = Some (h', true) ∧
         (x ∉ items h') ∧ index h' !! x = None ∧
         S (length (items h')) = length (items h) ∧
         (∀ v, v ∈ items h' ↔ v ∈ items h ∧ v ≠ x) ∧
         GetMin h' ≠ Some x ∧
         (∀ ops',
            distinct_inserts
              (present ∅ [OpInsert 5; OpInsert 3; OpInsert 8]%Z ∖ {[x]}) ops' →
            OpInsert x ∉ ops' →
            ∃ h'', run h' ops' = Some h'' ∧ (x ∉ items h'') ∧
                   GetMin h'' ≠ Some x)).
Proof.
  assert (distinct_inserts ∅ [OpInsert 5; OpInsert 3; OpInsert 8]%Z) as H.
  { simpl. repeat split; by vm_compute. }
  split; [exact H|]. exact (Remove_present_or_absent _ H).
Defined.

End HeapFacts.

(** * Properties of the trie *)

Module TrieFacts.
Import Trie.

(** Induction on the tree: the children of a node satisfy the property. *)
Lemma Node_tree_ind (P : Node → Prop) :
  (∀ cs e, Forall (λ c, ∀ n, c = Some n → P n) cs → P (mkNode cs e)) →
  ∀ node, P node.
Proof.
  intros step. fix IH 1. intros [cs e]. apply step.
  induction cs as [|[n'|] cs IHcs]; constructor.
  - intros n [= <-]. apply IH.
  - exact IHcs.
  - intros n [=].
  - exact IHcs.
Qed.

(** ** Letters and slots *)

Ltac letter_codes :=
  change (nat_of_ascii "a"%char) with 97 in *;
  change (nat_of_ascii "z"%char) with 122 in *.

Lemma charToIndex_lower c : is_lower c = true → is_Some (charToIndex c).
Proof.
  unfold is_lower, charToIndex. intros H%bool_decide_eq_true.
  rewrite decide_True by done. eauto.
Qed.

Lemma charToIndex_not_lower c : is_lower c = false → charToIndex c = None.
Proof.
  unfold is_lower, charToIndex. intros H%bool_decide_eq_false.
  by rewrite decide_False.
Qed.

Lemma charToIndex_Some c i :
  charToIndex c = Some i → is_lower c = true ∧ i < alphabetSize.
Proof.
  unfold is_lower, charToIndex, alphabetSize. case_decide as H; [|done].
  intros [= <-]. rewrite bool_decide_eq_true. letter_codes. split; [done|lia].
Qed.

Lemma charToIndex_inj c c' i :
  charToIndex c = Some i → charToIndex c' = Some i → c = c'.
Proof.
  unfold charToIndex. repeat case_decide; try done. intros [= <-] [= E].
  rewrite <-(ascii_nat_embedding c), <-(ascii_nat_embedding c').
  f_equal. letter_codes. lia.
Qed.

Lemma indexToChar_Some i :
  i < alphabetSize → ∃ ch, indexToChar i = Some ch ∧ charToIndex ch = Some i.
Proof.
  unfold indexToChar, charToIndex, alphabetSize. intros Hi.
  rewrite decide_True by done. eexists; split; [done|].
  letter_codes. rewrite nat_ascii_embedding by lia.
  rewrite decide_True by lia. f_equal. lia.
Qed.

Lemma lowercase_app p s :
  lowercase (p +:+ s) = lowercase p && lowercase s.
Proof. induction p as [|c p IH]; simpl; [done|]. by rewrite IH, andb_assoc. Qed.

(** ** Slots of a node *)

Lemma child_Some node idx next :
  child node idx = Some next ↔ children node !! idx = Some (Some next).
Proof.
  unfold child. destruct (children node !! idx) as [[?|]|]; naive_solver.
Qed.

Lemma child_insert_eq cs e idx x :
  idx < length cs → child (mkNode (<[idx:=Some x]> cs) e) idx = Some x.
Proof. intros H. unfold child; simpl. by rewrite list_lookup_insert_eq. Qed.

Lemma child_insert_ne cs e idx j x :
  idx ≠ j → child (mkNode (<[idx:=x]> cs) e) j = child (mkNode cs e) j.
Proof. intros H. unfold child; simpl. by rewrite list_lookup_insert_ne. Qed.

Lemma child_NewNode idx : child NewNode idx = None.
Proof.
  unfold child, NewNode; cbn [children].
  destruct (_ !! idx) as [o|] eqn:E; [|done].
  by apply lookup_replicate in E as [-> _].
Qed.

Lemma wf_child node idx next : wf node → child node idx = Some next → wf next.
Proof.
  intros Hwf H%child_Some. destruct Hwf as [cs e _ Hall]; simpl in *.
  rewrite Forall_lookup in Hall. by eapply Hall.
Qed.

Lemma wf_length node : wf node → length (children node) = alphabetSize.
Proof. by intros []. Qed.

Lemma wf_NewNode : wf NewNode.
Proof.
  constructor; [by rewrite length_replicate|].
  apply Forall_forall. by intros c [-> _]%elem_of_replicate n.
Qed.

Lemma wf_insert cs e idx next :
  wf (mkNode cs e) → wf next → ∀ e', wf (mkNode (<[idx:=Some next]> cs) e').
Proof.
  intros Hwf Hn e'. inversion_clear Hwf as [? ? Hlen Hall].
  constructor; [by rewrite length_insert|].
  apply Forall_insert; [done|]. by intros n [= <-].
Qed.

(** ** Paths *)

Lemma descend_app node p s :
  descend node (p +:+ s) = descend node p ≫= λ n, descend n s.
Proof.
  revert node. induction p as [|c p IH]; intros node; simpl; [done|].
  destruct (charToIndex c); simpl; [|done].
  destruct (child node n); simpl; [|done]. apply IH.
Qed.

Lemma descend_lowercase node w :
  is_Some (descend node w) → lowercase w = true.
Proof.
  revert node. induction w as [|c w IH]; intros node; simpl; [done|].
  destruct (charToIndex c) as [idx|] eqn:Hc; simpl; [|by intros [? [=]]].
  apply charToIndex_Some in Hc as [-> _].
  destruct (child node idx); simpl; [|by intros [? [=]]]. apply IH.
Qed.

Lemma descend_NewNode w : is_Some (descend NewNode w) → w = EmptyString.
Proof.
  destruct w as [|c w]; simpl; [done|].
  destruct (charToIndex c); simpl; [|by intros [? [=]]].
  rewrite child_NewNode. by intros [? [=]].
Qed.

Lemma Search_loop_flag node w :
  lowercase w = true → Search_loop node w = Some (flag node w).
Proof.
  unfold flag. revert node. induction w as [|c w IH]; intros node; simpl; [done|].
  intros [Hc Hw]%andb_prop. destruct (charToIndex_lower c Hc) as [idx ->]; simpl.
  destruct (child node idx); simpl; [by apply IH|done].
Qed.

Lemma Search_loop_true node w :
  Search_loop node w = Some true ↔ flag node w = true.
Proof.
  unfold flag. revert node. induction w as [|c w IH]; intros node; simpl.
  - split; [by intros [= ->]|by intros ->].
  - destruct (charToIndex c) as [idx|]; simpl; [|done].
    destruct (child node idx); simpl; [apply IH|done].
Qed.

Lemma StartsWith_loop_path node p :
  lowercase p = true →
  StartsWith_loop node p = Some (bool_decide (is_Some (descend node p))).
Proof.
  revert node. induction p as [|c p IH]; intros node; simpl.
  - done.
  - intros [Hc Hp]%andb_prop. destruct (charToIndex_lower c Hc) as [idx ->]; simpl.
    destruct (child node idx); simpl; [by apply IH|done].
Qed.

Lemma StartsWith_loop_true node p :
  StartsWith_loop node p = Some true ↔ is_Some (descend node p).
Proof.
  revert node. induction p as [|c p IH]; intros node; simpl.
  - split; eauto.
  - destruct (charToIndex c) as [idx|]; simpl; [|split; [done|by intros [? [=]]]].
    destruct (child node idx); simpl; [apply IH|].
    split; [done|by intros [? [=]]].
Qed.

Lemma flag_NewNode w : flag NewNode w = false.
Proof.
  unfold flag. destruct (descend NewNode w) as [n|] eqn:E; [|done].
  assert (w = EmptyString) as -> by (apply descend_NewNode; eauto).
  by injection E as <-.
Qed.

(** ** [Insert] *)

(** Below an updated slot: the path continues in the new child when its
    first letter selects that slot, and is the old path otherwise. *)
Lemma descend_insert_slot cs e idx x c v :
  idx < length cs →
  descend (mkNode (<[idx:=Some x]> cs) e) (String c v) =
    if decide (charToIndex c = Some idx) then descend x v
    else descend (mkNode cs e) (String c v).
Proof.
  intros Hlen. simpl. case_decide as Hc.
  - rewrite Hc; simpl. by rewrite child_insert_eq.
  - destruct (charToIndex c) as [j|]; simpl; [|done].
    rewrite child_insert_ne; [done|congruence].
Qed.

Lemma prefix_cons c v c' w :
  String.prefix (String c v) (String c' w) = bool_decide (c = c') && String.prefix v w.
Proof. simpl. destruct (ascii_dec c c'); by case_bool_decide. Qed.

Lemma Insert_loop_spec node w :
  wf node → lowercase w = true →
  ∃ node', Insert_loop node w = Some node' ∧ wf node' ∧
    (∀ v, is_Some (descend node' v) ↔
          is_Some (descend node v) ∨ String.prefix v w = true) ∧
    (∀ v, flag node' v = bool_decide (v = w) || flag node v).
Proof.
  revert node. induction w as [|c w IH]; intros node Hwf Hw.
  - eexists; split; [done|]. destruct node as [cs e]. split; [|split].
    + inversion Hwf as [? ? Hl Ha]; subst. by constructor.
    + intros [|c v]; simpl; [naive_solver|].
      split; [by left|]. by intros [?|?].
    + by intros [|c v].
  - simpl in Hw. apply andb_prop in Hw as [Hc Hw].
    destruct (charToIndex_lower c Hc) as [idx Hidx].
    pose proof (charToIndex_Some _ _ Hidx) as [_ Hlt].
    set (next := default NewNode (child node idx)).
    assert (wf next) as Hnext.
    { unfold next. destruct (child node idx) eqn:E; simpl;
        [by eapply wf_child|apply wf_NewNode]. }
    destruct (IH next Hnext Hw) as (next' & Hins & Hwf' & Hpath & Hflag).
    exists (mkNode (<[idx:=Some next']> (children node)) (isEndOfWord node)).
    split.
    { simpl. rewrite Hidx; simpl. fold next. by rewrite Hins. }
    destruct node as [cs e]; cbn [children isEndOfWord] in *.
    pose proof (wf_length _ Hwf) as Hlen; simpl in Hlen.
    split; [by apply (wf_insert cs e)|]. split.
    + intros [|c' v]; [by split; [left|]; eauto|].
      rewrite descend_insert_slot by lia. rewrite prefix_cons.
      case_decide as Hc'.
      * assert (c' = c) as -> by eauto using charToIndex_inj.
        rewrite bool_decide_eq_true_2 by done. rewrite Hpath. simpl.
        rewrite Hidx; simpl. unfold next.
        destruct (child (mkNode cs e) idx) as [n0|]; simpl; [done|].
        split; [|naive_solver].
        intros [->%descend_NewNode|?]; [|by right].
        right. by destruct w.
      * rewrite bool_decide_eq_false_2 by congruence. naive_solver.
    + intros [|c' v]; [done|]. unfold flag.
      rewrite descend_insert_slot by lia. case_decide as Hc'.
      * assert (c' = c) as -> by eauto using charToIndex_inj.
        fold (flag next' v). rewrite Hflag. simpl. rewrite Hidx; simpl.
        f_equal; [apply bool_decide_ext; naive_solver|].
        unfold next. destruct (child (mkNode cs e) idx); simpl; [done|].
        apply flag_NewNode.
      * rewrite bool_decide_eq_false_2; [done|]. congruence.
Qed.

(** ** [Delete] *)

Lemma shape_insert_slot cs e idx next next' :
  cs !! idx = Some (Some next) → shape next' = shape next →
  shape (mkNode (<[idx:=Some next']> cs) e) = shape (mkNode cs e).
Proof.
  intros Hcs Hs. simpl. f_equal. rewrite list_fmap_insert. simpl. rewrite Hs.
  apply list_insert_id. by rewrite list_lookup_fmap, Hcs.
Qed.

Lemma Delete_loop_spec node w :
  lowercase w = true →
  ∃ node', Delete_loop node w = Some (node', flag node w) ∧
    (flag node w = false → node' = node) ∧
    shape node' = shape node ∧
    (wf node → wf node') ∧
    (∀ v, is_Some (descend node' v) ↔ is_Some (descend node v)) ∧
    (∀ v, flag node' v = negb (bool_decide (v = w)) && flag node v).
Proof.
  revert node. induction w as [|c w IH]; intros node Hw.
  - destruct node as [cs [|]]; simpl; eexists; (split; [done|]).
    + split; [done|]. split; [done|]. split.
      { intros Hwf. inversion Hwf; subst. by constructor. }
      split; [by intros [|c v]|]. by intros [|c v].
    + split; [done|]. split; [done|]. split; [done|].
      split; [done|]. by intros [|c v].
  - simpl in Hw. apply andb_prop in Hw as [Hc Hw].
    destruct (charToIndex_lower c Hc) as [idx Hidx].
    assert (flag node (String c w) =
            from_option (λ n, flag n w) false (child node idx)) as Hfl.
    { unfold flag; simpl. rewrite Hidx; simpl. by destruct (child node idx). }
    destruct (child node idx) as [next|] eqn:Hch.
    + destruct (IH next Hw) as (next' & Hdel & Hsame & Hshape & Hwf' & Hpath & Hflag).
      exists (mkNode (<[idx:=Some next']> (children node)) (isEndOfWord node)).
      simpl in Hfl. rewrite Hfl. split.
      { simpl. rewrite Hidx; simpl. rewrite Hch. by rewrite Hdel. }
      apply child_Some in Hch. destruct node as [cs e]; cbn [children isEndOfWord] in *.
      pose proof (lookup_lt_Some _ _ _ Hch) as Hlt.
      split; [|split; [|split; [|split]]].
      * intros ->%Hsame. f_equal. by apply list_insert_id.
      * by eapply shape_insert_slot.
      * intros Hwf. apply (wf_insert cs e); [done|].
        apply Hwf'. eapply wf_child; [done|]. by apply child_Some.
      * intros [|c' v]; [by split; eauto|].
        rewrite descend_insert_slot by done. case_decide as Hc'; [|done].
        rewrite Hpath. simpl. rewrite Hc'; simpl.
        unfold child; simpl. by rewrite Hch.
      * intros [|c' v]; [done|]. unfold flag.
        rewrite descend_insert_slot by done. case_decide as Hc'.
        -- assert (c' = c) as -> by eauto using charToIndex_inj.
           fold (flag next' v). rewrite Hflag. simpl. rewrite Hidx; simpl.
           unfold child; simpl. rewrite Hch; simpl.
           f_equal. f_equal. apply bool_decide_ext; naive_solver.
        -- rewrite bool_decide_eq_false_2; [done|]. congruence.
    + exists node. simpl in Hfl. rewrite Hfl. split.
      { simpl. rewrite Hidx; simpl. by rewrite Hch. }
      split; [done|]. split; [done|]. split; [done|]. split; [done|].
      intros v. destruct (decide (v = String c w)) as [->|Hne].
      * rewrite Hfl. by rewrite andb_false_r.
      * by rewrite bool_decide_eq_false_2.
Qed.

(** ** Words: concatenation, prefixes, order *)

Lemma append_cons c (a b : string) : String c a +:+ b = String c (a +:+ b).
Proof. reflexivity. Qed.

Lemma append_empty_r (s : string) : s +:+ EmptyString = s.
Proof. induction s as [|c s IH]; [done|]. by rewrite append_cons, IH. Qed.

Lemma append_assoc (a b c : string) : (a +:+ b) +:+ c = a +:+ (b +:+ c).
Proof. induction a as [|x a IH]; [done|]. by rewrite !append_cons, IH. Qed.

Lemma append_inv_head (p a b : string) : p +:+ a = p +:+ b → a = b.
Proof. induction p as [|c p IH]; [done|]. rewrite !append_cons. intros [= ?]. by apply IH. Qed.

Lemma prefix_iff p w : String.prefix p w = true ↔ ∃ u, w = p +:+ u.
Proof.
  revert w. induction p as [|c p IH]; intros w.
  - split; [by exists w|]. by destruct w.
  - destruct w as [|c' w]; [split; [done|by intros [? [=]]]|].
    rewrite prefix_cons, andb_true_iff, bool_decide_eq_true, IH.
    split; [intros [-> [u ->]]; by exists u|]. intros [u [= -> ->]]. eauto.
Qed.

Lemma compare_app p a b :
  String.compare (p +:+ a) (p +:+ b) = String.compare a b.
Proof.
  induction p as [|c p IH]; [done|]. rewrite !append_cons. simpl.
  unfold Ascii.compare. by rewrite N.compare_refl.
Qed.

Lemma lex_lt_irrefl a : ¬ lex_lt a a.
Proof.
  unfold lex_lt. by rewrite <-(append_empty_r a), compare_app.
Qed.

Lemma lex_lt_extend p c u : lex_lt p (p +:+ String c u).
Proof.
  unfold lex_lt. rewrite <-(append_empty_r p) at 1. by rewrite compare_app.
Qed.

Lemma indexToChar_lt i j ci cj :
  i < j → indexToChar i = Some ci → indexToChar j = Some cj →
  Ascii.compare ci cj = Lt.
Proof.
  unfold indexToChar, alphabetSize. intros Hij.
  repeat case_decide; try done. letter_codes. intros Ei Ej.
  assert (ci = ascii_of_nat (97 + i)) as -> by congruence.
  assert (cj = ascii_of_nat (97 + j)) as -> by congruence.
  unfold Ascii.compare. rewrite N2Nat.inj_compare. apply Nat.compare_lt_iff.
  change (nat_of_ascii (ascii_of_nat (97 + i)) <
          nat_of_ascii (ascii_of_nat (97 + j))).
  rewrite !nat_ascii_embedding by lia. lia.
Qed.

Lemma lex_lt_slots p ci cj u v :
  Ascii.compare ci cj = Lt → lex_lt (p +:+ String ci u) (p +:+ String cj v).
Proof. intros H. unfold lex_lt. rewrite compare_app. simpl. by rewrite H. Qed.

Lemma StronglySorted_lex_NoDup l : StronglySorted lex_lt l → NoDup l.
Proof.
  induction 1 as [|a l Hs IH Hall]; constructor; [|done].
  intros Hin. rewrite Forall_forall in Hall. by eapply lex_lt_irrefl, Hall.
Qed.

(** ** The depth-first collection *)

(** [w] is [currentWord] followed by a word flagged below [node]. *)
Definition below (node : Node) (currentWord w : string) : Prop :=
  ∃ u, w = currentWord +:+ u ∧ flag node u = true.

(** What [collectWordsDFS] does at [node]: it never panics, appends to
    [words], and what it appends are the words below [node], in strictly
    increasing order. *)
Definition dfs_ok (node : Node) : Prop :=
  ∀ currentWord words, ∃ out,
    collectWordsDFS node currentWord words = Some (words ++ out) ∧
    (∀ w, w ∈ out ↔ below node currentWord w) ∧
    StronglySorted lex_lt out.

Lemma indexToChar_charToIndex i ch :
  indexToChar i = Some ch ↔ charToIndex ch = Some i.
Proof.
  split.
  - intros H. assert (i < alphabetSize) as Hi.
    { unfold indexToChar in H. by case_decide. }
    destruct (indexToChar_Some i Hi) as (ch' & E & ?). congruence.
  - intros H. pose proof (charToIndex_Some _ _ H) as [_ Hi].
    destruct (indexToChar_Some i Hi) as (ch' & E & ?).
    by rewrite (charToIndex_inj ch ch' i).
Qed.

Lemma flag_cons node c u :
  flag node (String c u) = true ↔
  ∃ idx next, charToIndex c = Some idx ∧ child node idx = Some next ∧
              flag next u = true.
Proof.
  unfold flag; simpl. destruct (charToIndex c) as [idx|]; simpl.
  - destruct (child node idx) as [next|] eqn:E; simpl.
    + split; [intros H; by exists idx, next|].
      intros (? & ? & [= <-] & Hc & ?). congruence.
    + split; [done|]. intros (? & ? & [= <-] & Hc & _). congruence.
  - split; [done|]. by intros (? & ? & [=] & _).
Qed.

Lemma collectSlots_spec currentWord cs :
  ∀ i words,
    Forall (λ c, ∀ n, c = Some n → dfs_ok n) cs →
    i + length cs ≤ alphabetSize →
    ∃ out, collectSlots currentWord cs i words = Some (words ++ out) ∧
      (∀ w, w ∈ out ↔
         ∃ k n ch u, cs !! k = Some (Some n) ∧ indexToChar (i + k) = Some ch ∧
                     w = currentWord +:+ String ch u ∧ flag n u = true) ∧
      StronglySorted lex_lt out.
Proof.
  induction cs as [|[n|] cs IH]; intros i words Hall Hlen.
  - exists []. rewrite app_nil_r. split; [done|]. split; [|constructor].
    intros w. split; [by intros ?%elem_of_nil|]. by intros (k & ? & ? & ? & ? & _).
  - apply Forall_cons in Hall as [Hn Hall]. simpl in Hlen.
    destruct (indexToChar_Some i) as (ch & Hch & _); [lia|].
    destruct (Hn n eq_refl (currentWord +:+ String ch EmptyString) words)
      as (out1 & Hrun1 & Hin1 & Hs1).
    destruct (IH (S i) (words ++ out1) Hall) as (out2 & Hrun2 & Hin2 & Hs2);
      [lia|].
    exists (out1 ++ out2). split; [|split].
    + simpl. rewrite Hch; simpl. rewrite Hrun1; simpl.
      by rewrite Hrun2, app_assoc.
    + intros w. rewrite elem_of_app, Hin1, Hin2. unfold below. split.
      * intros [(u & -> & Hu)|(k & n' & ch' & u & Hk & Hc & -> & Hu)].
        -- exists 0, n, ch, u. rewrite Nat.add_0_r, append_assoc. done.
        -- exists (S k), n', ch', u. by rewrite Nat.add_succ_r.
      * intros ([|k] & n' & ch' & u & Hk & Hc & -> & Hu).
        -- left. rewrite Nat.add_0_r in Hc. simpl in Hk.
           exists u. rewrite append_assoc. naive_solver.
        -- right. exists k, n', ch', u. by rewrite Nat.add_succ_r in Hc.
    + apply StronglySorted_app; split; [|done].
      intros w1 w2 (u1 & -> & _)%Hin1 (k & n' & ch' & u2 & _ & Hc & -> & _)%Hin2.
      rewrite append_assoc. apply lex_lt_slots.
      eapply (indexToChar_lt i (S i + k)); [lia|done..].
  - apply Forall_cons in Hall as [_ Hall]. simpl in Hlen.
    destruct (IH (S i) words Hall) as (out & Hrun & Hin & Hs); [lia|].
    exists out. split; [done|]. split; [|done].
    intros w. rewrite Hin. split.
    + intros (k & n' & ch' & u & Hk & Hc & -> & Hu).
      exists (S k), n', ch', u. by rewrite Nat.add_succ_r.
    + intros ([|k] & n' & ch' & u & Hk & Hc & -> & Hu); [done|].
      exists k, n', ch', u. by rewrite Nat.add_succ_r in Hc.
Qed.

Lemma collectWordsDFS_spec node : wf node → dfs_ok node.
Proof.
  induction node as [cs e IH] using Node_tree_ind. intros Hwf.
  inversion Hwf as [? ? Hlen Hall]; subst.
  assert (Forall (λ c, ∀ n, c = Some n → dfs_ok n) cs) as Hok.
  { rewrite Forall_forall in IH, Hall. apply Forall_forall. intros c Hc n ->.
    by eapply IH, Hall. }
  intros currentWord words.
  destruct (collectSlots_spec currentWord cs 0
              (if e then words ++ [currentWord] else words) Hok)
    as (out & Hrun & Hin & Hs); [simpl; lia|].
  exists ((if e then [currentWord] else []) ++ out). split; [|split].
  - rewrite collectWordsDFS_unfold, Hrun. destruct e; [|done].
    by rewrite <-app_assoc.
  - intros w. rewrite elem_of_app, Hin. unfold below. split.
    + intros [Hw|(k & n & ch & u & Hk & Hc & -> & Hu)].
      * destruct e; [|by apply elem_of_nil in Hw].
        apply list_elem_of_singleton in Hw as ->. exists EmptyString.
        by rewrite append_empty_r.
      * exists (String ch u). split; [done|]. apply flag_cons.
        exists k, n. simpl in Hc. apply indexToChar_charToIndex in Hc.
        split; [done|]. split; [|done]. by apply child_Some.
    + intros ([|c u] & -> & Hu).
      * left. unfold flag in Hu; simpl in Hu. subst e.
        rewrite append_empty_r. by apply list_elem_of_singleton.
      * right. apply flag_cons in Hu as (idx & next & Hc & Hch & Hu).
        exists idx, next, c, u. apply child_Some in Hch.
        by apply indexToChar_charToIndex in Hc.
  - apply StronglySorted_app; split; [|split; [|done]].
    + intros w1 w2 Hw1 (k & n & ch & u & _ & _ & -> & _)%Hin.
      destruct e; [|by apply elem_of_nil in Hw1].
      apply list_elem_of_singleton in Hw1 as ->. apply lex_lt_extend.
    + destruct e; repeat constructor.
Qed.

(** ** Runs *)

Lemma run_app t ops1 ops2 :
  run t (ops1 ++ ops2) = run t ops1 ≫= λ t', run t' ops2.
Proof.
  revert t. induction ops1 as [|o ops1 IH]; intros t; simpl; [done|].
  destruct (step t o); simpl; [apply IH|done].
Qed.

Lemma run_snoc t ops o : run t (ops ++ [o]) = run t ops ≫= λ t', step t' o.
Proof.
  rewrite run_app. destruct (run t ops) as [t'|]; simpl; [|done].
  by destruct (step t' o).
Qed.

Lemma inserted_snoc ops o v :
  inserted (ops ++ [o]) v ↔ o = OpInsert v ∨ inserted ops v.
Proof.
  unfold inserted. rewrite elem_of_app, list_elem_of_singleton.
  split; intros [?|?]; eauto.
Qed.

Lemma stored_snoc_insert ops x w :
  stored (ops ++ [OpInsert x]) w ↔ w = x ∨ stored ops w.
Proof.
  unfold stored. split.
  - intros (before & after & E & Hno).
    destruct after as [|o after _] using rev_ind.
    + apply (app_inj_tail ops before) in E as [_ [= ->]]. by left.
    + right. rewrite app_comm_cons, app_assoc in E.
      apply app_inj_tail in E as [-> _]. exists before, after. split; [done|].
      intros ?. apply Hno, elem_of_app. by left.
  - intros [->|(before & after & -> & Hno)].
    + exists ops, []. split; [done|]. by intros ?%elem_of_nil.
    + exists before, (after ++ [OpInsert x]).
      split; [by rewrite <-app_assoc|].
      rewrite elem_of_app, list_elem_of_singleton. by intros [?|?].
Qed.

Lemma stored_snoc_delete ops x w :
  stored (ops ++ [OpDelete x]) w ↔ w ≠ x ∧ stored ops w.
Proof.
  unfold stored. split.
  - intros (before & after & E & Hno).
    destruct after as [|o after _] using rev_ind.
    + by apply (app_inj_tail ops before) in E as [_ [=]].
    + rewrite app_comm_cons, app_assoc in E.
      apply app_inj_tail in E as [-> <-].
      rewrite elem_of_app, list_elem_of_singleton in Hno. split.
      * intros ->. apply Hno. by right.
      * exists before, after. split; [done|]. intros ?. apply Hno. by left.
  - intros [Hne (before & after & -> & Hno)].
    exists before, (after ++ [OpDelete x]). split; [by rewrite <-app_assoc|].
    rewrite elem_of_app, list_elem_of_singleton. intros [?|[= ->]]; done.
Qed.

(** The trie after a run [ops]: its paths are the prefixes of the inserted
    words, its flags mark the stored words. *)
Definition repr (ops : list op) (node : Node) : Prop :=
  wf node ∧
  (∀ w, is_Some (descend node w) ↔
        w = EmptyString ∨ ∃ v, inserted ops v ∧ String.prefix w v = true) ∧
  (∀ w, flag node w = true ↔ stored ops w).

Lemma repr_nil : repr [] NewNode.
Proof.
  split; [apply wf_NewNode|]. split.
  - intros w. split; [intros ?%descend_NewNode; by left|].
    intros [->|(v & Hv & _)]; [by eexists|]. by apply elem_of_nil in Hv.
  - intros w. rewrite flag_NewNode. split; [done|].
    intros (before & after & E & _). by destruct before.
Qed.

Lemma run_repr ops :
  Forall (λ o, lowercase (op_word o) = true) ops →
  ∃ t, run NewTrie ops = Some t ∧ repr ops (root t).
Proof.
  induction ops as [|o ops IH] using rev_ind; intros Hops.
  - exists NewTrie. split; [done|apply repr_nil].
  - apply Forall_app in Hops as [Hops Ho]. apply List.Forall_inv in Ho.
    destruct (IH Hops) as (t & Hrun & Hwf & Hpath & Hflag).
    rewrite run_snoc, Hrun; simpl. destruct o as [x|x]; simpl in *.
    + destruct (Insert_loop_spec (root t) x Hwf Ho)
        as (node' & Hins & Hwf' & Hpath' & Hflag').
      exists (mkTrie node'). unfold Insert. rewrite Hins. split; [done|].
      split; [done|]. split.
      * intros w. simpl. rewrite Hpath', Hpath. split.
        -- intros [[->|(v & Hv & Hp)]|Hp]; [by left|right..].
           ++ exists v. split; [|done]. apply inserted_snoc. by right.
           ++ exists x. split; [|done]. apply inserted_snoc. by left.
        -- intros [->|(v & [[= ->]|Hv]%inserted_snoc & Hp)];
             [by left; left|by right|]. left; right. by exists v.
      * intros w. simpl. rewrite Hflag', stored_snoc_insert, <-Hflag.
        rewrite orb_true_iff, bool_decide_eq_true. done.
    + destruct (Delete_loop_spec (root t) x Ho)
        as (node' & Hdel & _ & _ & Hwf' & Hpath' & Hflag').
      exists (mkTrie node'). unfold Delete. rewrite Hdel. split; [done|].
      split; [by apply Hwf'|]. split.
      * intros w. simpl. rewrite Hpath', Hpath. split.
        -- intros [->|(v & Hv & Hp)]; [by left|right].
           exists v. split; [|done]. apply inserted_snoc. by right.
        -- intros [->|(v & [[=]|Hv]%inserted_snoc & Hp)]; [by left|].
           right. by exists v.
      * intros w. simpl. rewrite Hflag', stored_snoc_delete, <-Hflag.
        rewrite andb_true_iff, negb_true_iff, bool_decide_eq_false. done.
Qed.

(** ** Panics *)

(** A byte that is not a lowercase letter lies on the path that the
    traversal of [w] follows from [node]: the letters before it spell an
    existing path. *)
Definition hits_bad (node : Node) (w : string) : Prop :=
  ∃ p c r, w = p +:+ String c r ∧ is_lower c = false ∧
           is_Some (descend node p).

Lemma hits_bad_nil node : ¬ hits_bad node EmptyString.
Proof. intros (p & c & r & E & _). by destruct p. Qed.

Lemma hits_bad_cons node c w :
  hits_bad node (String c w) ↔
  charToIndex c = None ∨
  ∃ idx next, charToIndex c = Some idx ∧ child node idx = Some next ∧
              hits_bad next w.
Proof.
  split.
  - intros (p & c' & r & E & Hc' & Hp). destruct p as [|c0 p].
    + injection E as -> ->. left. by apply charToIndex_not_lower.
    + rewrite append_cons in E. injection E as <- ->. right.
      simpl in Hp. destruct (charToIndex c) as [idx|]; simpl in Hp;
        [|by destruct Hp].
      destruct (child node idx) as [next|] eqn:Hch; simpl in Hp;
        [|by destruct Hp].
      exists idx, next. split; [done|]. split; [done|]. by exists p, c', r.
  - intros [Hc|(idx & next & Hc & Hch & p & c' & r & -> & Hc' & Hp)].
    + exists EmptyString, c, w. split; [done|]. split; [|by eexists].
      destruct (is_lower c) eqn:E; [|done].
      apply charToIndex_lower in E as [? ?]. congruence.
    + exists (String c p), c', r. split; [done|]. split; [done|].
      simpl. rewrite Hc; simpl. by rewrite Hch.
Qed.

Lemma hits_bad_lowercase node w : lowercase w = true → ¬ hits_bad node w.
Proof.
  intros Hw (p & c & r & -> & Hc & _). rewrite lowercase_app in Hw.
  simpl in Hw. rewrite Hc in Hw. by rewrite andb_false_r in Hw.
Qed.

Ltac walk_panic IH :=
  let c := fresh "c" in let w := fresh "w" in
  let node := fresh "node" in let idx := fresh "idx" in
  let next := fresh "next" in let Hc := fresh "Hc" in
  let Hch := fresh "Hch" in
  intros node; simpl; rewrite hits_bad_cons;
  destruct (charToIndex _) as [idx|] eqn:Hc; simpl;
    [|split; [by left|done]];
  destruct (child node idx) as [next|] eqn:Hch; simpl.

Lemma Search_loop_None node w : Search_loop node w = None ↔ hits_bad node w.
Proof.
  revert node. induction w as [|c w IH].
  - intros node. split; [done|]. by intros ?%hits_bad_nil.
  - walk_panic IH.
    + rewrite IH. split; [intros ?; right; by eexists _, _|].
      intros [?|(? & ? & ? & ? & ?)]; congruence.
    + split; [done|]. intros [?|(? & ? & ? & ? & ?)]; congruence.
Qed.

Lemma StartsWith_loop_None node w :
  StartsWith_loop node w = None ↔ hits_bad node w.
Proof.
  revert node. induction w as [|c w IH].
  - intros node. split; [done|]. by intros ?%hits_bad_nil.
  - walk_panic IH.
    + rewrite IH. split; [intros ?; right; by eexists _, _|].
      intros [?|(? & ? & ? & ? & ?)]; congruence.
    + split; [done|]. intros [?|(? & ? & ? & ? & ?)]; congruence.
Qed.

Lemma Delete_loop_None node w : Delete_loop node w = None ↔ hits_bad node w.
Proof.
  revert node. induction w as [|c w IH].
  - intros node. split; [|by intros ?%hits_bad_nil].
    simpl. by destruct (negb _).
  - walk_panic IH.
    + destruct (Delete_loop next w) as [r|] eqn:Hd; simpl.
      * split; [done|]. intros [?|(i & n & Hi & Hn & Hb)]; [congruence|].
        assert (n = next) as -> by congruence. apply IH in Hb. congruence.
      * split; [|done]. intros _. right. exists idx, next.
        split; [done|]. split; [done|]. by apply IH.
    + split; [done|]. intros [?|(? & ? & ? & ? & ?)]; congruence.
Qed.

Lemma wf_descend node w n : wf node → descend node w = Some n → wf n.
Proof.
  revert node. induction w as [|c w IH]; intros node Hwf; simpl.
  - by intros [= <-].
  - destruct (charToIndex c) as [idx|]; simpl; [|done].
    destruct (child node idx) as [next|] eqn:Hch; simpl; [|done].
    apply IH. by eapply wf_child.
Qed.

Lemma Collect_loop_descend node rest pfx :
  lowercase rest = true →
  Collect_loop node rest pfx =
    match descend node rest with
    | Some n => collectWordsDFS n pfx []
    | None => Some []
    end.
Proof.
  revert node. induction rest as [|c rest IH]; intros node; simpl; [done|].
  intros [Hc Hr]%andb_prop. destruct (charToIndex_lower c Hc) as [idx ->]; simpl.
  destruct (child node idx); simpl; [by apply IH|done].
Qed.

Lemma Collect_loop_None node rest pfx :
  wf node → Collect_loop node rest pfx = None ↔ hits_bad node rest.
Proof.
  revert node. induction rest as [|c w IH].
  - intros node Hwf. split; [|by intros ?%hits_bad_nil]. simpl.
    destruct (collectWordsDFS_spec node Hwf pfx []) as (out & -> & _). done.
  - intros node Hwf. revert node Hwf. walk_panic IH.
    + intros Hwf. rewrite IH by by eapply wf_child.
      split; [intros ?; right; by eexists _, _|].
      intros [?|(? & ? & ? & ? & ?)]; congruence.
    + intros _. split; [done|]. intros [?|(? & ? & ? & ? & ?)]; congruence.
Qed.

Lemma Insert_loop_None node p c r :
  lowercase p = true → is_lower c = false →
  Insert_loop node (p +:+ String c r) = None.
Proof.
  intros Hp Hc. revert node. induction p as [|c0 p IH]; intros node.
  - simpl. by rewrite (charToIndex_not_lower c Hc).
  - rewrite append_cons. simpl in *. apply andb_prop in Hp as [Hc0 Hp].
    destruct (charToIndex c0); simpl; [|done]. by rewrite IH.
Qed.

(** ** The methods in terms of paths and flags *)

Lemma Search_loop_Some_false node w :
  Search_loop node w = Some false ↔ ¬ hits_bad node w ∧ flag node w = false.
Proof.
  rewrite <-Search_loop_None, <-not_true_iff_false, <-Search_loop_true.
  destruct (Search_loop node w) as [[]|]; split; try done; by intros [? ?].
Qed.

Lemma Search_loop_ext node node' w :
  (hits_bad node' w ↔ hits_bad node w) → flag node' w = flag node w →
  Search_loop node' w = Search_loop node w.
Proof.
  intros Hbad Hflag. destruct (Search_loop node w) as [[]|] eqn:E.
  - apply Search_loop_true. rewrite Hflag. by apply Search_loop_true.
  - apply Search_loop_Some_false. rewrite Hbad, Hflag.
    by apply Search_loop_Some_false.
  - apply Search_loop_None, Hbad. by apply Search_loop_None.
Qed.

Lemma reachable_repr t : reachable t → ∃ ops, repr ops (root t).
Proof.
  intros (ops & Hops & Hrun). exists ops.
  destruct (run_repr ops Hops) as (t' & Hrun' & Hrepr). congruence.
Qed.

Lemma reachable_wf t : reachable t → wf (root t).
Proof. by intros (ops & Hwf & _)%reachable_repr. Qed.

Lemma flag_descend_app node p n u :
  descend node p = Some n → flag node (p +:+ u) = flag n u.
Proof. intros H. unfold flag. by rewrite descend_app, H. Qed.

Lemma flag_no_path node p u :
  descend node p = None → flag node (p +:+ u) = false.
Proof. intros H. unfold flag. by rewrite descend_app, H. Qed.

(** ** The claims *)

(** C4. After any run of [Insert]s and [Delete]s of lowercase words on a
    new trie, [Search w] returns true exactly when [w] was inserted and not
    deleted afterwards; for every other lowercase word it returns false, in
    particular for a word that is only a prefix of a stored one. *)
Theorem Search_iff_stored ops :
  Forall (λ o, lowercase (op_word o) = true) ops →
  ∃ t, run NewTrie ops = Some t ∧
    (∀ w, Search t w = Some true ↔ stored ops w) ∧
    (∀ w, lowercase w = true → ¬ stored ops w → Search t w = Some false).
Proof.
  intros Hops. destruct (run_repr ops Hops) as (t & Hrun & _ & _ & Hflag).
  exists t. split; [done|]. split.
  - intros w. unfold Search. by rewrite Search_loop_true.
  - intros w Hw Hno. unfold Search. rewrite Search_loop_flag by done.
    f_equal. apply not_true_iff_false. by rewrite Hflag.
Qed.

Lemma Search_iff_stored_witness :
  Forall (λ o, lowercase (op_word o) = true)
    [OpInsert "app"; OpInsert "apple"; OpDelete "app"] ∧
  ∃ t, run NewTrie [OpInsert "app"; OpInsert "apple"; OpDelete "app"] = Some t ∧
    (∀ w, Search t w = Some true ↔
          stored [OpInsert "app"; OpInsert "apple"; OpDelete "app"] w) ∧
    (∀ w, lowercase w = true →
          ¬ stored [OpInsert "app"; OpInsert "apple"; OpDelete "app"] w →
          Search t w = Some false).
Proof.
  assert (Forall (λ o, lowercase (op_word o) = true)
            [OpInsert "app"; OpInsert "apple"; OpDelete "app"]) as H
    by (repeat constructor).
  split; [exact H|]. exact (Search_iff_stored _ H).
Defined.

(** C5. On a trie built by lowercase insertions and deletions, for a
    lowercase prefix [p], [CollectAllWordsStartingWith p] returns exactly
    the words that [Search] finds and that start with [p], in strictly
    increasing lexicographic order, hence without duplicates; it returns
    the empty sequence when there is no path for [p]. *)
Theorem Collect_exact_sorted t p :
  reachable t → lowercase p = true →
  ∃ out, CollectAllWordsStartingWith t p = Some out ∧
    (∀ w, w ∈ out ↔ Search t w = Some true ∧ String.prefix p w = true) ∧
    StronglySorted lex_lt out ∧ NoDup out ∧
    (descend (root t) p = None → out = []).
Proof.
  intros Hwf%reachable_wf Hp. unfold CollectAllWordsStartingWith, Search.
  rewrite Collect_loop_descend by done.
  destruct (descend (root t) p) as [n|] eqn:Hd.
  - destruct (collectWordsDFS_spec n (wf_descend _ _ _ Hwf Hd) p [])
      as (out & -> & Hin & Hs).
    exists out. split; [done|].
    split; [|split; [done|split; [by apply StronglySorted_lex_NoDup|done]]].
    intros w. rewrite Hin, Search_loop_true, prefix_iff. unfold below. split.
    + intros (u & -> & Hu). split; [|by exists u].
      by rewrite (flag_descend_app _ _ n).
    + intros [Hw (u & ->)]. exists u. split; [done|].
      by rewrite (flag_descend_app _ _ n) in Hw.
  - exists []. split; [done|]. split; [|by repeat constructor].
    intros w. rewrite Search_loop_true, prefix_iff.
    split; [by intros ?%elem_of_nil|]. intros [Hw (u & ->)].
    by rewrite flag_no_path in Hw.
Qed.

(** The trie of the demonstration, cut down to four words. *)
Definition sample_trie : Trie :=
  default NewTrie (run NewTrie (OpInsert <$> ["cat"; "car"; "app"; "apple"])).

Lemma sample_trie_reachable : reachable sample_trie.
Proof.
  exists (OpInsert <$> ["cat"; "car"; "app"; "apple"]).
  split; [repeat constructor|reflexivity].
Defined.

Lemma Collect_exact_sorted_witness :
  reachable sample_trie ∧ lowercase "ca" = true ∧
  ∃ out, CollectAllWordsStartingWith sample_trie "ca" = Some out ∧
    (∀ w, w ∈ out ↔
          Search sample_trie w = Some true ∧ String.prefix "ca" w = true) ∧
    StronglySorted lex_lt out ∧ NoDup out ∧
    (descend (root sample_trie) "ca" = None → out = []).
Proof.
  split; [exact sample_trie_reachable|]. split; [reflexivity|].
  exact (Collect_exact_sorted sample_trie "ca" sample_trie_reachable eq_refl).
Defined.

Lemma hits_bad_same_paths node node' w :
  (∀ v, is_Some (descend node' v) ↔ is_Some (descend node v)) →
  hits_bad node' w ↔ hits_bad node w.
Proof.
  intros H. unfold hits_bad.
  split; intros (p & c & r & E & Hc & Hp); exists p, c, r; by rewrite ?H in *.
Qed.

(** C6. [Delete w] on a lowercase word: when there is no path for [w], or
    the node at its end is not flagged, it returns false and the trie is
    unchanged; when that node is flagged, it returns true, [Search w] is
    false afterwards, the tree has the same nodes, and [Search] answers as
    before for every other word. *)
Theorem Delete_soft t w :
  lowercase w = true →
  ((descend (root t) w = None ∨
    ∃ n, descend (root t) w = Some n ∧ isEndOfWord n = false) →
   Delete t w = Some (t, false)) ∧
  (∀ n, descend (root t) w = Some n → isEndOfWord n = true →
   ∃ t', Delete t w = Some (t', true) ∧
     Search t' w = Some false ∧
     shape (root t') = shape (root t) ∧
     (∀ v, is_Some (descend (root t') v) ↔ is_Some (descend (root t) v)) ∧
     (∀ w', w' ≠ w → Search t' w' = Search t w')).
Proof.
  intros Hw. destruct t as [node]; simpl.
  destruct (Delete_loop_spec node w Hw)
    as (node' & Hdel & Hsame & Hshape & _ & Hpath & Hflag).
  unfold Delete, Search; simpl. rewrite Hdel; simpl. split.
  - intros Hno. assert (flag node w = false) as Hf.
    { unfold flag. by destruct Hno as [->|(n & -> & ?)]. }
    by rewrite Hf, (Hsame Hf).
  - intros n Hn He. assert (flag node w = true) as Hf.
    { unfold flag. by rewrite Hn. }
    rewrite Hf. exists (mkTrie node'). split; [done|]. simpl.
    split; [|split; [done|split; [done|]]].
    + rewrite Search_loop_flag, Hflag by done.
      by rewrite bool_decide_eq_true_2.
    + intros w' Hne. apply Search_loop_ext.
      * by apply hits_bad_same_paths.
      * rewrite Hflag. by rewrite bool_decide_eq_false_2.
Qed.

Lemma Delete_soft_witness :
  lowercase "app" = true ∧
  ((descend (root sample_trie) "app" = None ∨
    ∃ n, descend (root sample_trie) "app" = Some n ∧ isEndOfWord n = false) →
   Delete sample_trie "app" = Some (sample_trie, false)) ∧
  (∀ n, descend (root sample_trie) "app" = Some n → isEndOfWord n = true →
   ∃ t', Delete sample_trie "app" = Some (t', true) ∧
     Search t' "app" = Some false ∧
     shape (root t') = shape (root sample_trie) ∧
     (∀ v, is_Some (descend (root t') v) ↔
           is_Some (descend (root sample_trie) v)) ∧
     (∀ w', w' ≠ "app" → Search t' w' = Search sample_trie w')).
Proof. split; [reflexivity|]. exact (Delete_soft sample_trie "app" eq_refl). Defined.

(** C7, as the code has it. After any run of lowercase insertions and
    deletions on a new trie, [StartsWith p] returns true exactly when [p] is
    empty or some inserted word, deleted since or not, starts with [p]; for
    every other lowercase [p] it returns false. *)
Theorem StartsWith_iff_inserted ops :
  Forall (λ o, lowercase (op_word o) = true) ops →
  ∃ t, run NewTrie ops = Some t ∧
    (∀ p, StartsWith t p = Some true ↔
          p = EmptyString ∨ ∃ v, inserted ops v ∧ String.prefix p v = true) ∧
    (∀ p, lowercase p = true → is_Some (StartsWith t p)).
Proof.
  intros Hops. destruct (run_repr ops Hops) as (t & Hrun & _ & Hpath & _).
  exists t. split; [done|]. split.
  - intros p. unfold StartsWith. by rewrite StartsWith_loop_true.
  - intros p Hp. unfold StartsWith. rewrite StartsWith_loop_path by done.
    by eexists.
Qed.

Lemma StartsWith_iff_inserted_witness :
  Forall (λ o, lowercase (op_word o) = true)
    [OpInsert "app"; OpDelete "app"] ∧
  ∃ t, run NewTrie [OpInsert "app"; OpDelete "app"] = Some t ∧
    (∀ p, StartsWith t p = Some true ↔
          p = EmptyString ∨
          ∃ v, inserted [OpInsert "app"; OpDelete "app"] v ∧
               String.prefix p v = true) ∧
    (∀ p, lowercase p = true → is_Some (StartsWith t p)).
Proof.
  assert (Forall (λ o, lowercase (op_word o) = true)
            [OpInsert "app"; OpDelete "app"]) as H by (repeat constructor).
  split; [exact H|]. exact (StartsWith_iff_inserted _ H).
Defined.

(** C7 as stated fails on the new trie: [StartsWith] of the empty prefix is
    true although no word was inserted. *)
Lemma StartsWith_empty_counterexample :
  ¬ (∀ ops t p,
       Forall (λ o, lowercase (op_word o) = true) ops →
       run NewTrie ops = Some t → lowercase p = true →
       (StartsWith t p = Some true ↔
        ∃ v, inserted ops v ∧ String.prefix p v = true)).
Proof.
  intros H.
  destruct (proj1 (H [] NewTrie EmptyString (Forall_nil_2 _) eq_refl eq_refl) eq_refl)
    as (v & Hv & _).
  by apply elem_of_nil in Hv.
Qed.

(** C8, as the code has it. After any run of lowercase insertions and
    deletions on a new trie: the path spelling [W] exists exactly when [W]
    is empty or some inserted word starts with [W]; and the node at the end
    of that path is flagged exactly when [W] was inserted and not deleted
    afterwards. *)
Theorem paths_and_flags ops :
  Forall (λ o, lowercase (op_word o) = true) ops →
  ∃ t, run NewTrie ops = Some t ∧
    (∀ W, is_Some (descend (root t) W) ↔
          W = EmptyString ∨ ∃ v, inserted ops v ∧ String.prefix W v = true) ∧
    (∀ W n, descend (root t) W = Some n →
            (isEndOfWord n = true ↔ stored ops W)).
Proof.
  intros Hops. destruct (run_repr ops Hops) as (t & Hrun & _ & Hpath & Hflag).
  exists t. split; [done|]. split; [done|].
  intros W n Hn. rewrite <-Hflag. unfold flag. by rewrite Hn.
Qed.

Lemma paths_and_flags_witness :
  Forall (λ o, lowercase (op_word o) = true)
    [OpInsert "ab"; OpInsert "a"; OpDelete "ab"] ∧
  ∃ t, run NewTrie [OpInsert "ab"; OpInsert "a"; OpDelete "ab"] = Some t ∧
    (∀ W, is_Some (descend (root t) W) ↔
          W = EmptyString ∨
          ∃ v, inserted [OpInsert "ab"; OpInsert "a"; OpDelete "ab"] v ∧
               String.prefix W v = true) ∧
    (∀ W n, descend (root t) W = Some n →
            (isEndOfWord n = true ↔
             stored [OpInsert "ab"; OpInsert "a"; OpDelete "ab"] W)).
Proof.
  assert (Forall (λ o, lowercase (op_word o) = true)
            [OpInsert "ab"; OpInsert "a"; OpDelete "ab"]) as H
    by (repeat constructor).
  split; [exact H|]. exact (paths_and_flags _ H).
Defined.

(** C8 as stated fails after [Insert "a"]: the prefix "a" of "ab" was
    inserted, and there is no path spelling "ab". *)
Lemma path_of_inserted_prefix_counterexample :
  ¬ (∀ ops t W,
       Forall (λ o, lowercase (op_word o) = true) ops →
       run NewTrie ops = Some t →
       (is_Some (descend (root t) W) ↔
        ∃ p, inserted ops p ∧ String.prefix p W = true)).
Proof.
  intros H.
  destruct (H [OpInsert "a"] (default NewTrie (Insert NewTrie "a")) "ab")
    as [_ Hfalse]; [by repeat constructor|reflexivity|].
  destruct Hfalse as [n Hn]; [|by vm_compute in Hn].
  exists "a". split; [|reflexivity]. apply list_elem_of_singleton. done.
Qed.

Lemma not_None_is_Some {A} (o : option A) : o ≠ None → is_Some o.
Proof. destruct o; [by eexists|done]. Qed.

(** C9. On a trie built by lowercase insertions and deletions: with an
    all-lowercase argument each of the five methods returns normally; with
    an argument [p ++ c :: r] whose first byte outside ['a'..'z'] is [c],
    [Insert] panics, and the four reading methods panic when the path of [p]
    exists, that is when the traversal reaches [c], and return normally when
    it does not. *)
Theorem panic_iff_bad_byte_reached t :
  reachable t →
  (∀ w, lowercase w = true →
     is_Some (Insert t w) ∧ is_Some (Search t w) ∧ is_Some (StartsWith t w) ∧
     is_Some (Delete t w) ∧ is_Some (CollectAllWordsStartingWith t w)) ∧
  (∀ p c r, lowercase p = true → is_lower c = false →
     Insert t (p +:+ String c r) = None ∧
     (is_Some (descend (root t) p) →
        Search t (p +:+ String c r) = None ∧
        StartsWith t (p +:+ String c r) = None ∧
        Delete t (p +:+ String c r) = None ∧
        CollectAllWordsStartingWith t (p +:+ String c r) = None) ∧
     (descend (root t) p = None →
        Search t (p +:+ String c r) = Some false ∧
        StartsWith t (p +:+ String c r) = Some false ∧
        Delete t (p +:+ String c r) = Some (t, false) ∧
        CollectAllWordsStartingWith t (p +:+ String c r) = Some [])).
Proof.
  intros Hwf%reachable_wf. split.
  - intros w Hw. pose proof (hits_bad_lowercase (root t) w Hw) as Hok.
    split; [|split; [|split; [|split]]].
    + destruct (Insert_loop_spec (root t) w Hwf Hw) as (n & Hn & _).
      unfold Insert. rewrite Hn. by eexists.
    + apply not_None_is_Some. unfold Search. by rewrite Search_loop_None.
    + apply not_None_is_Some. unfold StartsWith.
      by rewrite StartsWith_loop_None.
    + unfold Delete. destruct (Delete_loop (root t) w) as [r|] eqn:E;
        [by eexists|]. by apply Delete_loop_None in E.
    + apply not_None_is_Some. unfold CollectAllWordsStartingWith.
      by rewrite Collect_loop_None.
  - intros p c r Hp Hc. split; [|split].
    + unfold Insert. by rewrite Insert_loop_None.
    + intros Hpath. assert (hits_bad (root t) (p +:+ String c r)) as Hbad
        by by exists p, c, r.
      unfold Search, StartsWith, Delete, CollectAllWordsStartingWith.
      rewrite (proj2 (Search_loop_None _ _) Hbad).
      rewrite (proj2 (StartsWith_loop_None _ _) Hbad).
      rewrite (proj2 (Delete_loop_None _ _) Hbad).
      by rewrite (proj2 (Collect_loop_None _ _ _ Hwf) Hbad).
    + intros Hno. revert Hno. unfold Search, StartsWith, Delete,
        CollectAllWordsStartingWith.
      generalize (p +:+ String c r) at 5 as pfx. destruct t as [node].
      simpl. clear Hwf. revert node.
      induction p as [|c0 p IH]; intros node pfx; [by simpl|].
      rewrite append_cons. simpl in *. apply andb_prop in Hp as [Hc0 Hp].
      destruct (charToIndex_lower c0 Hc0) as [idx ->]; simpl.
      destruct (child node idx) as [next|] eqn:Hch; simpl; [|done].
      intros Hno. destruct (IH Hp next pfx Hno) as (-> & -> & Hd & ->).
      split; [done|]. split; [done|]. split; [|done].
      destruct (Delete_loop next (p +:+ String c r)) as [[n' b]|]; [|done].
      simpl in *. injection Hd as -> ->. do 3 f_equal.
      destruct node as [cs e]; simpl. f_equal. apply list_insert_id.
      by apply child_Some in Hch.
Qed.

Lemma panic_iff_bad_byte_reached_witness :
  reachable sample_trie ∧
  (∀ w, lowercase w = true →
     is_Some (Insert sample_trie w) ∧ is_Some (Search sample_trie w) ∧
     is_Some (StartsWith sample_trie w) ∧ is_Some (Delete sample_trie w) ∧
     is_Some (CollectAllWordsStartingWith sample_trie w)) ∧
  (∀ p c r, lowercase p = true → is_lower c = false →
     Insert sample_trie (p +:+ String c r) = None ∧
     (is_Some (descend (root sample_trie) p) →
        Search sample_trie (p +:+ String c r) = None ∧
        StartsWith sample_trie (p +:+ String c r) = None ∧
        Delete sample_trie (p +:+ String c r) = None ∧
        CollectAllWordsStartingWith sample_trie (p +:+ String c r) = None) ∧
     (descend (root sample_trie) p = None →
        Search sample_trie (p +:+ String c r) = Some false ∧
        StartsWith sample_trie (p +:+ String c r) = Some false ∧
        Delete sample_trie (p +:+ String c r) = Some (sample_trie, false) ∧
        CollectAllWordsStartingWith sample_trie (p +:+ String c r) = Some [])).
Proof.
  split; [exact sample_trie_reachable|].
  exact (panic_iff_bad_byte_reached sample_trie sample_trie_reachable).
Defined.

(** C10. On the empty string: [StartsWith] is true on every trie; [Search]
    is false on a new trie; [Insert] sets the flag of the root and nothing
    else, and [Search] is true afterwards. *)
Theorem empty_word :
  (∀ t, StartsWith t EmptyString = Some true) ∧
  Search NewTrie EmptyString = Some false ∧
  (∀ t, ∃ t', Insert t EmptyString = Some t' ∧
              isEndOfWord (root t') = true ∧
              children (root t') = children (root t) ∧
              Search t' EmptyString = Some true).
Proof.
  split; [done|]. split; [done|]. intros t. by eexists.
Qed.

End TrieFacts.

(** * Further properties of the indexed heap *)

Module HeapExtra.
Import Heap HeapFacts.

(** ** Bounds *)

(** [Swap] within bounds, whatever the map holds. *)
Lemma Swap_in_range h i j :
  i < Len h → j < Len h →
  ∃ h', Swap h i j = Some h' ∧ Len h' = Len h ∧
    (∀ k, items h' !! k =
          if decide (k = i) then items h !! j
          else if decide (k = j) then items h !! i else items h !! k).
Proof.
  intros Hi Hj. pose proof (lookup_val h i Hi) as Ha.
  pose proof (lookup_val h j Hj) as Hb. unfold Len in *.
  unfold Swap. rewrite Ha, Hb. simpl.
  assert (∀ k, <[j:=val h i]> (<[i:=val h j]> (items h)) !! k =
               if decide (k = i) then items h !! j
               else if decide (k = j) then items h !! i
                    else items h !! k) as Hlook.
  { intros k. destruct (decide (k = j)) as [->|Hkj].
    - rewrite list_lookup_insert_eq by (by rewrite length_insert).
      case_decide; congruence.
    - rewrite list_lookup_insert_ne by congruence.
      destruct (decide (k = i)) as [->|Hki].
      + by rewrite list_lookup_insert_eq.
      + by rewrite list_lookup_insert_ne by congruence. }
  destruct (lookup_lt_is_Some_2 (<[j:=val h i]> (<[i:=val h j]> (items h))) i)
    as [vi Hvi]; [by rewrite !length_insert|].
  destruct (lookup_lt_is_Some_2 (<[j:=val h i]> (<[i:=val h j]> (items h))) j)
    as [vj Hvj]; [by rewrite !length_insert|].
  rewrite Hvi. simpl. rewrite Hvj. simpl. eexists. split; [done|]. simpl.
  split; [by rewrite !length_insert|].
  intros k. by rewrite Hlook, Ha, Hb.
Qed.

(** X8. The positional methods panic exactly out of range: [Less] and
    [Swap] when one of the two positions is not below [Len], [GetMin] and
    [Pop] when the heap is empty. *)
Theorem panics_out_of_range h i j :
  (Less h i j = None ↔ Len h ≤ i ∨ Len h ≤ j) ∧
  (Swap h i j = None ↔ Len h ≤ i ∨ Len h ≤ j) ∧
  (GetMin h = None ↔ Len h = 0) ∧
  (Pop h = None ↔ Len h = 0).
Proof.
  split; [|split; [|split]].
  - split.
    + intros Hn. destruct (decide (i < Len h)); [|lia].
      destruct (decide (j < Len h)); [|lia]. by rewrite Less_spec in Hn.
    + unfold Less, Len. intros [H|H].
      * by rewrite (lookup_ge_None_2 _ _ H).
      * rewrite (lookup_ge_None_2 _ _ H). by destruct (items h !! i).
  - split.
    + intros Hn. destruct (decide (i < Len h)); [|lia].
      destruct (decide (j < Len h)); [|lia].
      destruct (Swap_in_range h i j) as (h' & E & _); [done..|]. congruence.
    + unfold Swap, Len. intros [H|H].
      * by rewrite (lookup_ge_None_2 _ _ H).
      * rewrite (lookup_ge_None_2 _ _ H). by destruct (items h !! i).
  - unfold GetMin, Len. by destruct (items h).
  - unfold Pop, Len. split.
    + intros Hn. destruct (decide (length (items h) = 0)) as [|Hne]; [done|].
      destruct (lookup_lt_is_Some_2 (items h) (length (items h) - 1))
        as [x Hx]; [lia|]. by rewrite Hx in Hn.
    + intros H. rewrite H. simpl. by destruct (items h).
Qed.

(** ** [Push] and [Pop] *)

(** X9. [Pop] undoes [Push]: after [Push] of a value that is not a key of
    the map, [Pop] returns that value and the heap as it was. *)
Theorem Pop_Push h x :
  index h !! x = None → Pop (Push h x) = Some (h, x).
Proof.
  intros Hx. unfold Pop, Push. simpl. rewrite length_app. simpl.
  replace (length (items h) + 1 - 1) with (length (items h)) by lia.
  rewrite lookup_app_r by lia. rewrite Nat.sub_diag. simpl.
  rewrite take_app_length. rewrite delete_insert_id by done.
  by destruct h.
Qed.

Lemma Pop_Push_witness :
  index (Push NewItemHeap 5) !! 3%Z = None ∧
  Pop (Push (Push NewItemHeap 5) 3) = Some (Push NewItemHeap 5, 3%Z).
Proof.
  split; [reflexivity|]. exact (Pop_Push (Push NewItemHeap 5) 3 eq_refl).
Defined.

(** ** [Swap] twice *)

Lemma synced_items_eq h h' :
  synced h → synced h' → items h = items h' → h = h'.
Proof.
  intros Hs Hs' E. destruct h as [l m], h' as [l' m']; simpl in *. subst l'.
  f_equal. apply map_eq. intros v.
  destruct (m !! v) as [i|] eqn:Hm.
  - symmetry. apply Hs'. by apply Hs in Hm.
  - destruct (m' !! v) as [i|] eqn:Hm'; [|done].
    apply Hs', Hs in Hm'. simpl in *. congruence.
Qed.

(** X10. On a heap whose map is the inverse of its slice, [Swap] is its own
    inverse: the same [Swap] again gives the heap back. *)
Theorem Swap_involution h i j h1 :
  synced h → Swap h i j = Some h1 → Swap h1 i j = Some h.
Proof.
  intros Hs Hsw. assert (i < Len h ∧ j < Len h) as [Hi Hj].
  { destruct (panics_out_of_range h i j) as (_ & Hb & _).
    destruct (decide (i < Len h)); [|rewrite (proj2 Hb) in Hsw; [done|lia]].
    destruct (decide (j < Len h)); [|rewrite (proj2 Hb) in Hsw; [done|lia]].
    done. }
  destruct (Swap_spec h i j Hs Hi Hj) as (h1' & Hsw' & Hlen1 & Hs1 & Hlook1).
  assert (h1' = h1) as -> by congruence.
  destruct (Swap_spec h1 i j Hs1) as (h2 & Hsw2 & Hlen2 & Hs2 & Hlook2);
    [lia..|].
  rewrite Hsw2. f_equal. apply synced_items_eq; [done..|].
  apply list_eq. intros k. rewrite Hlook2, !Hlook1.
  repeat case_decide; subst; done.
Qed.

(** A heap that is in sync and not in heap order: [5] above [3]. *)
Definition sample_heap : ItemHeap := Push (Push NewItemHeap 5) 3.

Lemma sample_heap_synced : synced sample_heap.
Proof.
  apply Push_synced; [apply Push_synced; [apply good_new|]|].
  - by intros ?%elem_of_nil.
  - by intros [=]%list_elem_of_singleton.
Defined.

Lemma Swap_involution_witness :
  synced sample_heap ∧
  Swap sample_heap 0 1 = Some (default NewItemHeap (Swap sample_heap 0 1)) ∧
  Swap (default NewItemHeap (Swap sample_heap 0 1)) 0 1 = Some sample_heap.
Proof.
  split; [exact sample_heap_synced|]. split; [reflexivity|].
  exact (Swap_involution sample_heap 0 1 _ sample_heap_synced eq_refl).
Defined.

(** ** [Init] *)




(** Heap order from position [k] on, and around a position [x] as in
    [hole]. *)
Definition ordered_from (k n : nat) (f : nat → Z) : Prop :=
  ∀ i c, k ≤ i → c < n → child i c → (f i ≤ f c)%Z.

Definition hole_from (k n : nat) (f : nat → Z) (x : nat) : Prop :=
  (∀ i c, k ≤ i → c < n → child i c → i ≠ x → c ≠ x → (f i ≤ f c)%Z) ∧
  (∀ g c, k ≤ g → c < n → child g x → child x c → (f g ≤ f c)%Z).

Lemma hole_from_ext k n f g x :
  (∀ i, f i = g i) → hole_from k n f x → hole_from k n g x.
Proof.
  intros E [H1 H2]. split.
  - intros i c ? ? ? ? ?. rewrite <-!E. by apply H1.
  - intros i c ? ? ? ?. rewrite <-!E. by apply H2.
Qed.

Lemma hole_from_filled k n f x :
  hole_from k n f x →
  (∀ c, c < n → child x c → (f x ≤ f c)%Z) →
  (∀ g, k ≤ g → child g x → (f g ≤ f x)%Z) →
  ordered_from k n f.
Proof.
  intros [H1 _] Hdown Hup i c Hi Hc Hic.
  destruct (decide (i = x)) as [->|]; [by apply Hdown|].
  destruct (decide (c = x)) as [->|]; [by apply Hup|]. by apply H1.
Qed.

Lemma down_step_from k n f x j :
  hole_from k n f x → k ≤ x →
  child x j → j < n →
  (∀ s, s < n → child x s → (f j ≤ f s)%Z) →
  (f j < f x)%Z →
  hole_from k n (swapf f x j) j ∧
  (∀ g, child g j → (swapf f x j g ≤ swapf f x j j)%Z).
Proof.
  intros [H1 H2] Hk Hxj Hj Hmin Hlt. unfold swapf.
  split; [split|].
  - intros i c Hi Hc Hic Hij Hcj.
    pose proof (H1 i c Hi Hc Hic). pose proof (Hmin c Hc).
    pose proof (H2 i j Hi Hj).
    repeat case_decide; subst; unfold child in *; lia.
  - intros g c Hg Hc Hgj Hjc.
    assert (k ≤ j) as Hkj by (unfold child in *; lia).
    pose proof (H1 j c Hkj Hc Hjc).
    repeat case_decide; subst; unfold child in *; lia.
  - intros g Hg. repeat case_decide; subst; unfold child in *; lia.
Qed.

Lemma down_loop_from_spec k m :
  ∀ h i, Len h - i = m → synced h → i < Len h → k ≤ i →
         hole_from k (Len h) (val h) i →
         (∀ g, k ≤ g → child g i → (val h g ≤ val h i)%Z) →
         ∃ h' i', down_loop h i (Len h) = Some (h', i') ∧ synced h' ∧
                  ordered_from k (Len h') (val h') ∧ same_content h h'.
Proof.
  induction m as [m IH] using lt_wf_ind. intros h i Hm Hs Hi Hk Hhole Hup.
  rewrite down_loop_unfold. case_decide as Hleaf.
  - exists h, i. split; [done|]. split; [done|].
    split; [|apply same_content_refl].
    apply (hole_from_filled _ _ _ i); [done| |done].
    intros c Hc Hic. unfold child in Hic. lia.
  - destruct (smaller_child_spec h i (Len h)) as (j & -> & Hij & Hj & Hmin);
      [done|lia|].
    rewrite Less_spec by done. case_bool_decide as Hless.
    + destruct (Swap_good_step h i j Hs) as (h1 & -> & Hs1 & Hc1 & Hval);
        [lia..|].
      destruct (down_step_from _ _ _ _ _ Hhole Hk Hij Hj Hmin Hless)
        as [Hhole1 Hup1].
      pose proof Hc1 as [Hlen1 Hin1]. rewrite <-Hlen1.
      destruct (IH (Len h1 - j)) with (h := h1) (i := j)
        as (h' & i' & Hdown & Hs' & Hord' & Hc'); [| |done|lia|..].
      * unfold child in Hij. lia.
      * done.
      * unfold child in Hij. lia.
      * rewrite Hlen1. by eapply hole_from_ext.
      * intros g _ Hg. rewrite <-!Hval. by apply Hup1.
      * exists h', i'. split; [done|]. split; [done|]. split; [done|].
        by eapply same_content_trans.
    + exists h, i. split; [done|]. split; [done|].
      split; [|apply same_content_refl].
      apply (hole_from_filled _ _ _ i); [done| |done].
      intros c Hc Hic. specialize (Hmin c Hc Hic). lia.
Qed.

Lemma init_loop_spec k :
  ∀ h, synced h → k ≤ Len h / 2 → ordered_from k (Len h) (val h) →
       ∃ h', init_loop k (Len h) h = Some h' ∧ good h' ∧ same_content h h'.
Proof.
  induction k as [|k IH]; intros h Hs Hk Hord; simpl.
  - exists h. split; [done|]. split; [|apply same_content_refl].
    split; [done|]. intros i c Hc Hic. apply Hord; [lia|done..].
  - unfold down.
    destruct (down_loop_from_spec k (Len h - k) h k)
      as (h1 & i1 & -> & Hs1 & Hord1 & Hc1); [done|done|dlia|done|..].
    + split.
      * intros i c Hi Hc Hic Hik _. apply Hord; [lia|done..].
      * intros g c Hg _ Hgk _. unfold child in Hgk. lia.
    + intros g Hg Hgk. unfold child in Hgk. lia.
    + simpl. pose proof Hc1 as [Hlen1 _]. rewrite <-Hlen1.
      destruct (IH h1 Hs1) as (h' & Hrun & Hgood & Hc'); [lia|done|].
      exists h'. split; [done|]. split; [done|].
      by eapply same_content_trans.
Qed.

(** X12. [Init] establishes the invariant: on any heap whose map is the
    inverse of its slice, in whatever order the slice is, [Init] returns a
    heap in heap order and in sync that holds the same values, as many. *)
Theorem Init_establishes h :
  synced h → ∃ h', Init h = Some h' ∧ good h' ∧ same_content h h'.
Proof.
  intros Hs. unfold Init, heap_Init. apply init_loop_spec; [done|done|].
  intros i c Hi Hc Hic. unfold child in Hic. dlia.
Qed.

Lemma Init_establishes_witness :
  synced sample_heap ∧
  ∃ h', Init sample_heap = Some h' ∧ good h' ∧ same_content sample_heap h'.
Proof.
  split; [exact sample_heap_synced|].
  exact (Init_establishes sample_heap sample_heap_synced).
Defined.

(** ** The minimum along operations *)

(** A heap in order and in sync that holds 3, 5 and 8. *)
Definition sample_good : ItemHeap :=
  default NewItemHeap
    (run NewItemHeap [OpInsert 5; OpInsert 3; OpInsert 8]%Z).

Lemma sample_good_good : good sample_good.
Proof.
  assert (distinct_inserts ∅ [OpInsert 5; OpInsert 3; OpInsert 8]%Z) as Hd.
  { simpl. repeat split; by vm_compute. }
  destruct (run_new_good _ Hd) as (h & Hrun & Hgood & _).
  unfold sample_good. by rewrite Hrun.
Defined.

(** X13. On a heap in order and in sync, [Insert] of a value that is not
    held makes [GetMin] return the smaller of that value and the former
    minimum, and the value itself when the heap was empty. *)
Theorem GetMin_Insert h x :
  good h → x ∉ items h →
  ∃ h', Insert h x = Some h' ∧
        GetMin h' = Some (from_option (Z.min x) x (GetMin h)).
Proof.
  intros Hgood Hx.
  destruct (Insert_spec h x Hgood Hx) as (h' & Hins & Hgood' & Hlen & Hin).
  exists h'. split; [done|].
  destruct (GetMin_root h Hgood) as [Hemp Hmin].
  destruct (GetMin_root h' Hgood') as [_ Hmin'].
  destruct Hmin' as (m' & -> & Hm' & Hle').
  { intros E. unfold Len in Hlen. rewrite E in Hlen. simpl in Hlen. lia. }
  f_equal. apply Hin in Hm'.
  destruct (items h) as [|y l] eqn:E.
  - rewrite (Hemp eq_refl). simpl. destruct Hm' as [->|Hm']; [done|].
    by apply elem_of_nil in Hm'.
  - destruct Hmin as (m & -> & Hm & Hle); [done|]. simpl.
    assert (m' ≤ x)%Z by (apply Hle', Hin; by left).
    assert (m' ≤ m)%Z by (apply Hle', Hin; by right).
    destruct Hm' as [->|Hm']; [lia|]. specialize (Hle m' Hm'). lia.
Qed.

Lemma GetMin_Insert_witness :
  good sample_good ∧ (1%Z ∉ items sample_good) ∧
  ∃ h', Insert sample_good 1 = Some h' ∧
        GetMin h' = Some (from_option (Z.min 1) 1%Z (GetMin sample_good)).
Proof.
  assert (1%Z ∉ items sample_good) as H
    by (apply (bool_decide_eq_false_1 (1%Z ∈ items sample_good));
        by vm_compute).
  split; [exact sample_good_good|]. split; [exact H|].
  exact (GetMin_Insert sample_good 1 sample_good_good H).
Defined.

(** X14. Removing the minimum leaves a larger one: on a heap in order and
    in sync, [Remove] of the value that [GetMin] returns succeeds, the heap
    stays in order and in sync, and the next [GetMin], if the heap is not
    empty, returns a strictly larger value. *)
Theorem Remove_min_next h m :
  good h → GetMin h = Some m →
  ∃ h', Remove h m = Some (h', true) ∧ good h' ∧
        ∀ m', GetMin h' = Some m' → (m < m')%Z.
Proof.
  intros Hgood Hget. pose proof Hget as Hix. apply (proj1 Hgood) in Hix.
  destruct (Remove_present h m 0 Hgood Hix) as (h' & Hrem & Hgood' & _ & Hin).
  exists h'. split; [done|]. split; [done|]. intros m' Hget'.
  assert (m' ∈ items h') as Hm' by (apply list_elem_of_lookup; by exists 0).
  apply Hin in Hm' as [Hm' Hne].
  destruct (GetMin_root h Hgood) as [_ Hmin].
  destruct Hmin as (m0 & Hget0 & _ & Hle).
  { intros E. unfold GetMin in Hget. by rewrite E in Hget. }
  assert (m0 = m) as -> by congruence. specialize (Hle m' Hm'). lia.
Qed.

Lemma Remove_min_next_witness :
  good sample_good ∧ GetMin sample_good = Some 3%Z ∧
  ∃ h', Remove sample_good 3 = Some (h', true) ∧ good h' ∧
        ∀ m', GetMin h' = Some m' → (3 < m')%Z.
Proof.
  split; [exact sample_good_good|]. split; [reflexivity|].
  exact (Remove_min_next sample_good 3 sample_good_good eq_refl).
Defined.

(** X15. [Remove] undoes [Insert] on the values: on a heap in order and in
    sync, [Insert] of a value that is not held followed by [Remove] of it
    succeeds and gives a heap in order and in sync of the former length
    that holds the former values. *)
Theorem Insert_Remove_round_trip h x :
  good h → x ∉ items h →
  ∃ h1 h2, Insert h x = Some h1 ∧ Remove h1 x = Some (h2, true) ∧
           good h2 ∧ same_content h h2.
Proof.
  intros Hgood Hx.
  destruct (Insert_spec h x Hgood Hx) as (h1 & Hins & Hgood1 & Hlen1 & Hin1).
  assert (x ∈ items h1) as Hx1 by (apply Hin1; by left).
  destruct (index h1 !! x) as [i|] eqn:Hix;
    [|by apply (synced_absent h1 x (proj1 Hgood1)) in Hix].
  destruct (Remove_present h1 x i Hgood1 Hix)
    as (h2 & Hrem & Hgood2 & Hlen2 & Hin2).
  exists h1, h2. split; [done|]. split; [done|]. split; [done|].
  split; [lia|]. intros v. rewrite Hin2, Hin1. split.
  - by intros [[?|?] ?].
  - intros Hv. split; [by right|]. by intros ->.
Qed.

Lemma Insert_Remove_round_trip_witness :
  good sample_good ∧ (1%Z ∉ items sample_good) ∧
  ∃ h1 h2, Insert sample_good 1 = Some h1 ∧
           Remove h1 1 = Some (h2, true) ∧
           good h2 ∧ same_content sample_good h2.
Proof.
  assert (1%Z ∉ items sample_good) as H
    by (apply (bool_decide_eq_false_1 (1%Z ∈ items sample_good));
        by vm_compute).
  split; [exact sample_good_good|]. split; [exact H|].
  exact (Insert_Remove_round_trip sample_good 1 sample_good_good H).
Defined.

(** ** Inserting a value twice *)






(** ** [Len] *)

(** X17. After any run of [Insert]s and [Remove]s on a new heap in which no
    [Insert] inserts a value that is present, [Len] is the number of values
    present. *)
Theorem Len_counts_present ops :
  distinct_inserts ∅ ops →
  ∃ h, run NewItemHeap ops = Some h ∧ Len h = size (present ∅ ops).
Proof.
  intros Hd. destruct (run_new_good ops Hd) as (h & Hrun & [Hs _] & Hin).
  exists h. split; [done|].
  assert (present ∅ ops = list_to_set (items h)) as ->.
  { apply set_eq. intros v. by rewrite elem_of_list_to_set, Hin. }
  unfold Len. symmetry. apply size_list_to_set. by apply synced_NoDup.
Qed.

Lemma Len_counts_present_witness :
  distinct_inserts ∅ [OpInsert 5; OpInsert 3; OpRemove 5; OpRemove 4]%Z ∧
  ∃ h, run NewItemHeap [OpInsert 5; OpInsert 3; OpRemove 5; OpRemove 4]%Z
       = Some h ∧
       Len h = size (present ∅ [OpInsert 5; OpInsert 3; OpRemove 5; OpRemove 4]%Z).
Proof.
  assert (distinct_inserts ∅
            [OpInsert 5; OpInsert 3; OpRemove 5; OpRemove 4]%Z) as H.
  { simpl. repeat split; by vm_compute. }
  split; [exact H|]. exact (Len_counts_present _ H).
Defined.

End HeapExtra.

(** * Further properties of the trie *)

Module TrieExtra.
Import Trie TrieFacts.

(** ** Letters and slot numbers *)


(** ** Repeating an operation *)

Lemma Insert_loop_flagged node w :
  flag node w = true → Insert_loop node w = Some node.
Proof.
  revert node. induction w as [|c w IH]; intros node Hf.
  - destruct node as [cs e]. unfold flag in Hf; simpl in *. by subst e.
  - apply flag_cons in Hf as (idx & next & Hc & Hch & Hf).
    simpl. rewrite Hc; simpl. rewrite Hch; simpl. rewrite (IH next Hf); simpl.
    destruct node as [cs e]; simpl. f_equal. f_equal.
    apply list_insert_id. by apply child_Some in Hch.
Qed.

(** X2. [Insert] is idempotent on the tries that lowercase insertions and
    deletions build: inserting a lowercase word a second time changes
    nothing; and inserting a word that [Search] finds changes nothing. *)
Theorem Insert_idempotent t w :
  reachable t → lowercase w = true →
  ∃ t1, Insert t w = Some t1 ∧ Insert t1 w = Some t1 ∧
        (Search t w = Some true → t1 = t).
Proof.
  intros Hwf%reachable_wf Hw. unfold Insert, Search.
  destruct (Insert_loop_spec (root t) w Hwf Hw) as (n1 & Hins & _ & _ & Hflag).
  exists (mkTrie n1). rewrite Hins; simpl. split; [done|]. split.
  - rewrite Insert_loop_flagged; [done|].
    by rewrite Hflag, bool_decide_eq_true_2.
  - intros Hs%Search_loop_true. rewrite (Insert_loop_flagged _ _ Hs) in Hins.
    destruct t; simpl in *. congruence.
Qed.

Lemma Insert_idempotent_witness :
  reachable sample_trie ∧ lowercase "cart" = true ∧
  ∃ t1, Insert sample_trie "cart" = Some t1 ∧ Insert t1 "cart" = Some t1 ∧
        (Search sample_trie "cart" = Some true → t1 = sample_trie).
Proof.
  split; [exact sample_trie_reachable|]. split; [reflexivity|].
  exact (Insert_idempotent sample_trie "cart" sample_trie_reachable eq_refl).
Defined.

Lemma Delete_loop_again node w node' b :
  Delete_loop node w = Some (node', b) →
  Delete_loop node' w = Some (node', false) ∧ (b = false → node' = node).
Proof.
  revert node node' b. induction w as [|c w IH]; intros node node' b; simpl.
  - destruct node as [cs [|]]; simpl; intros [= <- <-]; by split.
  - destruct (charToIndex c) as [idx|] eqn:Hc; simpl; [|done].
    destruct (child node idx) as [next|] eqn:Hch; simpl.
    + destruct (Delete_loop next w) as [[n' b']|] eqn:Hd; simpl; [|done].
      intros [= <- <-]. destruct (IH _ _ _ Hd) as [Hagain Hsame].
      apply child_Some in Hch. pose proof (lookup_lt_Some _ _ _ Hch) as Hlt.
      rewrite child_insert_eq by done. simpl.
      rewrite Hagain; simpl. rewrite list_insert_insert_eq. split; [done|].
      intros ->%Hsame. destruct node as [cs e]; simpl in *. f_equal.
      by apply list_insert_id.
    + intros [= <- <-]. by rewrite Hch.
Qed.

(** X3. A second [Delete] of the same word finds nothing to delete: whatever
    the first one returned, the second returns false and leaves the trie as
    the first one left it; and a first [Delete] that returns false has left
    the trie as it was. *)
Theorem Delete_twice t w t' b :
  Delete t w = Some (t', b) →
  Delete t' w = Some (t', false) ∧ (b = false → t' = t).
Proof.
  unfold Delete. destruct (Delete_loop (root t) w) as [[n' b']|] eqn:Hd;
    simpl; [|done].
  intros [= <- <-]. destruct (Delete_loop_again _ _ _ _ Hd) as [Hagain Hsame].
  simpl. rewrite Hagain. split; [done|]. intros ->%Hsame. by destruct t.
Qed.

(** The sample trie after [Delete "app"]. *)
Definition sample_without_app : Trie :=
  default sample_trie (fst <$> Delete sample_trie "app").

Lemma Delete_twice_witness :
  Delete sample_trie "app" = Some (sample_without_app, true) ∧
  Delete sample_without_app "app" = Some (sample_without_app, false) ∧
  (true = false → sample_without_app = sample_trie).
Proof.
  assert (Delete sample_trie "app" = Some (sample_without_app, true))
    as H by reflexivity.
  split; [exact H|]. exact (Delete_twice _ _ _ _ H).
Defined.

(** ** [Insert] followed by [Delete] *)

Lemma Insert_Delete_loop_exact node w n_end :
  descend node w = Some n_end → isEndOfWord n_end = false →
  ∃ n1, Insert_loop node w = Some n1 ∧ Delete_loop n1 w = Some (node, true).
Proof.
  revert node. induction w as [|c w IH]; intros node; simpl.
  - intros [= <-] He. destruct node as [cs e]; simpl in *. subst e.
    by eexists.
  - destruct (charToIndex c) as [idx|] eqn:Hc; simpl; [|done].
    destruct (child node idx) as [next|] eqn:Hch; simpl; [|done].
    intros Hd He. destruct (IH next Hd He) as (next1 & -> & Hdel). simpl.
    eexists. split; [done|].
    apply child_Some in Hch. pose proof (lookup_lt_Some _ _ _ Hch) as Hlt.
    rewrite child_insert_eq by done. simpl. rewrite Hdel; simpl.
    rewrite list_insert_insert_eq. do 2 f_equal.
    destruct node as [cs e]; simpl in *. f_equal. by apply list_insert_id.
Qed.

(** X4. On a trie built by lowercase insertions and deletions, [Insert] of
    a lowercase word that [Search] does not find, followed by [Delete] of
    it, succeeds and gives back the answers of [Search] for every lowercase
    word; the path of the word stays, so [StartsWith] is true for each of
    its prefixes; and when the path was there before, the trie is the same
    as before. *)
Theorem Insert_then_Delete t w :
  reachable t → lowercase w = true → Search t w = Some false →
  ∃ t1 t2, Insert t w = Some t1 ∧ Delete t1 w = Some (t2, true) ∧
    (∀ v, lowercase v = true → Search t2 v = Search t v) ∧
    (∀ p, String.prefix p w = true → StartsWith t2 p = Some true) ∧
    (is_Some (descend (root t) w) → t2 = t).
Proof.
  intros Hwf%reachable_wf Hw Hs. unfold Search in Hs.
  rewrite Search_loop_flag in Hs by done. injection Hs as Hfw.
  destruct (Insert_loop_spec (root t) w Hwf Hw)
    as (n1 & Hins & Hwf1 & Hpath1 & Hflag1).
  destruct (Delete_loop_spec n1 w Hw)
    as (n2 & Hdel & _ & _ & _ & Hpath2 & Hflag2).
  assert (flag n1 w = true) as Hf1
    by (by rewrite Hflag1, bool_decide_eq_true_2).
  rewrite Hf1 in Hdel.
  exists (mkTrie n1), (mkTrie n2). unfold Insert, Delete, Search, StartsWith.
  rewrite Hins; simpl. rewrite Hdel; simpl.
  split; [done|]. split; [done|]. split; [|split].
  - intros v Hv. rewrite !Search_loop_flag by done. f_equal.
    rewrite Hflag2, Hflag1. case_bool_decide as E; simpl; [|done].
    by subst v.
  - intros p Hp. apply StartsWith_loop_true, Hpath2, Hpath1. by right.
  - intros [n_end Hend]. assert (isEndOfWord n_end = false) as He.
    { unfold flag in Hfw. by rewrite Hend in Hfw. }
    destruct (Insert_Delete_loop_exact _ _ _ Hend He) as (n1' & Hins' & Hdel').
    assert (n1' = n1) as -> by congruence.
    assert (n2 = root t) as -> by congruence. by destruct t.
Qed.

Lemma Insert_then_Delete_witness :
  reachable sample_trie ∧ lowercase "ca" = true ∧
  Search sample_trie "ca" = Some false ∧
  ∃ t1 t2, Insert sample_trie "ca" = Some t1 ∧
    Delete t1 "ca" = Some (t2, true) ∧
    (∀ v, lowercase v = true → Search t2 v = Search sample_trie v) ∧
    (∀ p, String.prefix p "ca" = true → StartsWith t2 p = Some true) ∧
    (is_Some (descend (root sample_trie) "ca") → t2 = sample_trie).
Proof.
  split; [exact sample_trie_reachable|]. split; [reflexivity|].
  split; [reflexivity|].
  exact (Insert_then_Delete sample_trie "ca" sample_trie_reachable
           eq_refl eq_refl).
Defined.

(** ** Paths *)

Lemma step_keeps_paths t o :
  wf (root t) → lowercase (op_word o) = true →
  ∃ t', step t o = Some t' ∧ wf (root t') ∧
        ∀ p, is_Some (descend (root t) p) → is_Some (descend (root t') p).
Proof.
  intros Hwf Ho. destruct o as [w|w]; simpl in *.
  - destruct (Insert_loop_spec (root t) w Hwf Ho) as (n1 & Hins & Hwf1 & Hp & _).
    exists (mkTrie n1). unfold Insert. rewrite Hins. split; [done|].
    split; [done|]. intros p Hpath. apply Hp. by left.
  - destruct (Delete_loop_spec (root t) w Ho)
      as (n1 & Hdel & _ & _ & Hwf1 & Hp & _).
    exists (mkTrie n1). unfold Delete. rewrite Hdel. split; [done|].
    split; [by apply Hwf1|]. intros p Hpath. by apply Hp.
Qed.

Lemma run_keeps_paths ops :
  ∀ t, wf (root t) → Forall (λ o, lowercase (op_word o) = true) ops →
       ∃ t', run t ops = Some t' ∧
             ∀ p, is_Some (descend (root t) p) → is_Some (descend (root t') p).
Proof.
  induction ops as [|o ops IH]; intros t Hwf Hops; simpl.
  - by exists t.
  - apply Forall_cons in Hops as [Ho Hops].
    destruct (step_keeps_paths t o Hwf Ho) as (t1 & -> & Hwf1 & Hp1). simpl.
    destruct (IH t1 Hwf1 Hops) as (t' & Hrun & Hp). exists t'.
    split; [done|]. intros p Hpath. by apply Hp, Hp1.
Qed.

(** X5. No path is ever removed: on a trie built by lowercase insertions
    and deletions, any further run of lowercase [Insert]s and [Delete]s
    returns normally, and a prefix for which [StartsWith] was true before
    the run is one for which it is true after it. *)
Theorem paths_persist t ops :
  reachable t → Forall (λ o, lowercase (op_word o) = true) ops →
  ∃ t', run t ops = Some t' ∧
        ∀ p, StartsWith t p = Some true → StartsWith t' p = Some true.
Proof.
  intros Hwf%reachable_wf Hops.
  destruct (run_keeps_paths ops t Hwf Hops) as (t' & Hrun & Hp).
  exists t'. split; [done|]. intros p. unfold StartsWith.
  rewrite !StartsWith_loop_true. apply Hp.
Qed.

Lemma paths_persist_witness :
  reachable sample_trie ∧
  Forall (λ o, lowercase (op_word o) = true)
    [OpDelete "cat"; OpDelete "car"; OpInsert "dog"] ∧
  ∃ t', run sample_trie [OpDelete "cat"; OpDelete "car"; OpInsert "dog"]
        = Some t' ∧
        ∀ p, StartsWith sample_trie p = Some true →
             StartsWith t' p = Some true.
Proof.
  assert (Forall (λ o, lowercase (op_word o) = true)
            [OpDelete "cat"; OpDelete "car"; OpInsert "dog"]) as H
    by (repeat constructor).
  split; [exact sample_trie_reachable|]. split; [exact H|].
  exact (paths_persist sample_trie _ sample_trie_reachable H).
Defined.

(** X6. A word that [Search] finds has all its prefixes found by
    [StartsWith], on every trie. *)
Theorem Search_implies_StartsWith t w p :
  Search t w = Some true → String.prefix p w = true →
  StartsWith t p = Some true.
Proof.
  unfold Search, StartsWith. rewrite Search_loop_true, StartsWith_loop_true.
  intros Hf [u ->]%prefix_iff. unfold flag in Hf. rewrite descend_app in Hf.
  destruct (descend (root t) p); [by eexists|done].
Qed.

Lemma Search_implies_StartsWith_witness :
  Search sample_trie "apple" = Some true ∧
  String.prefix "ap" "apple" = true ∧
  StartsWith sample_trie "ap" = Some true.
Proof.
  split; [reflexivity|]. split; [reflexivity|].
  exact (Search_implies_StartsWith sample_trie "apple" "ap" eq_refl eq_refl).
Defined.

(** ** Listing the whole trie *)

(** X7. After any run of lowercase [Insert]s and [Delete]s on a new trie,
    [CollectAllWordsStartingWith] of the empty prefix returns the words
    that were inserted and not deleted afterwards, each once, in increasing
    lexicographic order. *)
Theorem Collect_all_stored ops :
  Forall (λ o, lowercase (op_word o) = true) ops →
  ∃ t out, run NewTrie ops = Some t ∧
    CollectAllWordsStartingWith t EmptyString = Some out ∧
    (∀ w, w ∈ out ↔ stored ops w) ∧
    StronglySorted lex_lt out.
Proof.
  intros Hops. destruct (run_repr ops Hops) as (t & Hrun & Hwf & _ & Hflag).
  destruct (collectWordsDFS_spec (root t) Hwf EmptyString [])
    as (out & Hdfs & Hin & Hs).
  exists t, out. split; [done|]. split; [done|]. split; [|done].
  intros w. rewrite Hin, <-Hflag. unfold below. split.
  - by intros (u & -> & Hu).
  - intros Hw. by exists w.
Qed.

Lemma Collect_all_stored_witness :
  Forall (λ o, lowercase (op_word o) = true)
    [OpInsert "b"; OpInsert "ab"; OpInsert "a"; OpDelete "b"] ∧
  ∃ t out,
    run NewTrie [OpInsert "b"; OpInsert "ab"; OpInsert "a"; OpDelete "b"]
    = Some t ∧
    CollectAllWordsStartingWith t EmptyString = Some out ∧
    (∀ w, w ∈ out ↔
          stored [OpInsert "b"; OpInsert "ab"; OpInsert "a"; OpDelete "b"] w) ∧
    StronglySorted lex_lt out.
Proof.
  assert (Forall (λ o, lowercase (op_word o) = true)
            [OpInsert "b"; OpInsert "ab"; OpInsert "a"; OpDelete "b"]) as H
    by (repeat constructor).
  split; [exact H|]. exact (Collect_all_stored _ H).
Defined.

End TrieExtra.

(** * The two demonstration programs *)

(** [main] of the heap: insert 5, 3, 8; the minimum is 3; remove 3; the
    minimum is 5. *)
Example heap_demo :
  (h1 ← Heap.run Heap.NewItemHeap
          [Heap.OpInsert 5; Heap.OpInsert 3; Heap.OpInsert 8]%Z;
   m1 ← Heap.GetMin h1;
   r ← Heap.Remove h1 3;
   m2 ← Heap.GetMin r.1;
   Some (m1, r.2, m2)) = Some (3, true, 5)%Z.
Proof. vm_compute. reflexivity. Qed.

(** [main] of the trie, and the insertion that its last comment describes. *)
Example trie_demo :
  (t ← Trie.run Trie.NewTrie
         (Trie.OpInsert <$>
            ["cat"; "car"; "card"; "apple"; "app"; "application"]);
   a ← Trie.Search t "ca";
   b ← Trie.StartsWith t "ca";
   c ← Trie.CollectAllWordsStartingWith t "app";
   d ← Trie.CollectAllWordsStartingWith t "z";
   r ← Trie.Delete t "app";
   e ← Trie.Search r.1 "app";
   f ← Trie.Search r.1 "apple";
   g ← Trie.Delete r.1 "nonexistent";
   Some (a, b, c, d, r.2, e, f, g.2, Trie.Insert t "ApPle"))
  = Some (false, true, ["app"; "apple"; "application"], [], true, false, true,
          false, None).
Proof. vm_compute. reflexivity. Qed.
